(** * kit.go: the dynamic endpoint pool

    A shallow embedding of the service-discovery endpoint cache
    (package [sd]: [endpointCache], [FixedEndpointer],
    [DefaultEndpointer]) and of the load balancers of package [sd/lb]
    ([random], [roundRobin]), with the properties of the design document
    proved about them.  The retry executor of [sd/lb], whose source file
    is not at hand, is modelled from the design document.

    The definitions come first, package by package, then the
    properties, then the properties at sample values. *)

From Stdlib Require Import ZArith List String Ascii Lia Permutation.
From Stdlib Require Import OrderedTypeEx.
From stdpp Require Import gmap strings list sorting fin_maps.

Set Warnings "-register-all,-clear-no-such-hyp".
Local Open Scope Z_scope.

(** ** Go values shared by the packages *)

(** Go's [error] interface values.  Errors are compared by identity in the
    code ([err != nil], [want != have]); the two package-level sentinels
    get a constructor each, any other error value is identified by its
    message, and [RetryError] is the struct of package [lb]. *)
Inductive error : Type :=
  | ErrNoEndpoints
  | DeadlineExceeded
  | errors_New (msg : string)
  | RetryError (RawErrors : list error) (Final : error).

(** [time.Time] and [time.Duration] are integer counts of nanoseconds,
    taken without bound; [Add] is addition and [Before] the strict
    order. *)
Abbreviation Time := Z (only parsing).
Abbreviation Duration := Z (only parsing).
Definition Time_Add (t : Time) (d : Duration) : Time := t + d.
Definition Time_Before (t u : Time) : bool := t <? u.

(** *** [sort.Strings]

    Go orders strings bytewise, which is [String.compare].  The library
    routine sorts its argument in place; [sort_list] is the contents it
    leaves behind. *)
Definition string_le (s1 s2 : string) : Prop := String.leb s1 s2 = true.

Global Instance string_le_dec : RelDecision string_le :=
  λ s1 s2, decide (String.leb s1 s2 = true).

Definition sort_list (l : list string) : list string := merge_sort string_le l.

(** A [[]string] is a reference to its backing array, or nil.  The store
    maps array addresses to their contents, so that two slice values with
    the same address alias. *)
Abbreviation loc := positive (only parsing).
Abbreviation slice := (option loc) (only parsing).
Abbreviation store := (gmap loc (list string)) (only parsing).

Definition slice_get (h : store) (s : slice) : list string :=
  match s with
  | None => []
  | Some p => default [] (h !! p)
  end.

Definition sort_Strings (s : slice) (h : store) : store :=
  match s with
  | None => h
  | Some p => alter sort_list p h
  end.

(** ** Package [sd]: the endpoint cache *)

Module sd.

(** [Event] of the instancer: the instance strings and an error. *)
Record Event : Type := mkEvent {
  Instances : slice;
  Err : option error;
}.

Record endpointerOptions : Type := mkOptions {
  invalidateOnError : bool;
  invalidateTimeout : Duration;
}.

Section Cache.

(** [endpoint.Endpoint[REQ, RES]] and [io.Closer] values are objects the
    cache stores and hands out but never inspects; [FState] is whatever
    state the user's factory reads and writes when it is called. *)
Context {Endpoint Closer FState : Type}.

(** The three results of a [Factory] call. *)
Record FactoryResult : Type := mkResult {
  service : Endpoint;
  closer : option Closer;
  ferr : option error;
}.

Definition Factory : Type := string → FState → FactoryResult * FState.

Record endpointCloser : Type := mkEC {
  ec_Endpoint : Endpoint;
  ec_Closer : option Closer;
}.

Record endpointCache : Type := mkCache {
  options : endpointerOptions;
  factory : Factory;
  cache : gmap string endpointCloser;
  err : option error;
  endpoints : list Endpoint;
  invalidateDeadline : Time;
}.

(** The calls the cache makes on its collaborators, and the moment it
    installs a new snapshot, in the order they happen.  [EvClose] carries
    the key of the entry whose closer is closed. *)
Inductive effect : Type :=
  | EvLogErr (e : error)
  | EvLogInstance (instance : string) (e : error)
  | EvFactory (instance : string) (r : FactoryResult)
  | EvClose (instance : string) (cl : Closer)
  | EvInstall (eps : list Endpoint).

(** What lies outside a call: the cache object, the arrays of the
    instance slices, and the factory's state. *)
Record World : Type := mkWorld {
  c : endpointCache;
  heap : store;
  fstate : FState;
}.

Definition newEndpointCache (f : Factory) (o : endpointerOptions)
  : endpointCache :=
  {| options := o; factory := f; cache := ∅; err := None;
     endpoints := []; invalidateDeadline := 0 |}.

(** First loop of [updateCache]: an entry that exists is moved from the
    old map to the new one, any other is made by the factory. *)
Fixpoint produce (f : Factory) (instances : list string)
    (old new : gmap string endpointCloser) (fs : FState)
  : gmap string endpointCloser * gmap string endpointCloser
    * FState * list effect :=
  match instances with
  | [] => (old, new, fs, [])
  | instance :: rest =>
      match old !! instance with
      | Some sc =>
          produce f rest (delete instance old) (<[instance := sc]> new) fs
      | None =>
          let '(r, fs1) := f instance fs in
          match ferr r with
          | Some e =>
              let '(old', new', fs', evs) := produce f rest old new fs1 in
              (old', new', fs',
               EvFactory instance r :: EvLogInstance instance e :: evs)
          | None =>
              let sc := {| ec_Endpoint := service r; ec_Closer := closer r |} in
              let '(old', new', fs', evs) :=
                produce f rest old (<[instance := sc]> new) fs1 in
              (old', new', fs', EvFactory instance r :: evs)
          end
      end
  end.

(** Second loop: close what is left in the old map.  Go ranges over a
    map in an unspecified order; the model takes the order of
    [map_to_list]. *)
Definition closeLeftover (old : gmap string endpointCloser) : list effect :=
  omap (λ kv, EvClose kv.1 <$> ec_Closer kv.2) (map_to_list old).

(** Third loop: the endpoints of the instances that made it into the
    new map, in the order of the (sorted) instances. *)
Fixpoint populate (instances : list string)
    (new : gmap string endpointCloser) : list Endpoint :=
  match instances with
  | [] => []
  | instance :: rest =>
      match new !! instance with
      | None => populate rest new
      | Some sc => ec_Endpoint sc :: populate rest new
      end
  end.

Definition updateCache (instances : slice) (w : World)
  : World * list effect :=
  let h := sort_Strings instances (heap w) in
  let l := slice_get h instances in
  let '(old', new', fs', evs) :=
    produce (factory (c w)) l (cache (c w)) ∅ (fstate w) in
  let closes := closeLeftover old' in
  let eps := populate l new' in
  ({| c := {| options := options (c w); factory := factory (c w);
              cache := new'; err := err (c w); endpoints := eps;
              invalidateDeadline := invalidateDeadline (c w) |};
      heap := h; fstate := fs' |},
   evs ++ closes ++ [EvInstall eps]).

Definition set_err (e : option error) (x : endpointCache) : endpointCache :=
  {| options := options x; factory := factory x; cache := cache x;
     err := e; endpoints := endpoints x;
     invalidateDeadline := invalidateDeadline x |}.

Definition set_deadline (t : Time) (x : endpointCache) : endpointCache :=
  {| options := options x; factory := factory x; cache := cache x;
     err := err x; endpoints := endpoints x; invalidateDeadline := t |}.

Definition with_c (x : endpointCache) (w : World) : World :=
  {| c := x; heap := heap w; fstate := fstate w |}.

(** [Update].  [now] is what [c.timeNow()] returns if the call reads the
    clock (it does so only when it records an error). *)
Definition Update (event : Event) (now : Time) (w : World)
  : World * list effect :=
  match Err event with
  | None =>
      let '(w1, evs) := updateCache (Instances event) w in
      (with_c (set_err None (c w1)) w1, evs)
  | Some e =>
      if negb (invalidateOnError (options (c w))) then (w, [EvLogErr e])
      else
        match err (c w) with
        | Some _ => (w, [EvLogErr e])
        | None =>
            (with_c (set_deadline
                       (Time_Add now (invalidateTimeout (options (c w))))
                       (set_err (Some e) (c w))) w,
             [EvLogErr e])
        end
  end.

(** The test both critical sections of [Endpoints] make. *)
Definition serving (now : Time) (x : endpointCache) : bool :=
  match err x with
  | None => true
  | Some _ => Time_Before now (invalidateDeadline x)
  end.

(** [endpointCache.Endpoints]: the section under the read lock, then, if
    it did not return, the section under the write lock.  [now1] and
    [now2] are the clock readings of the two sections.  A nil slice is
    the empty list. *)
Definition Endpoints_shared (now1 : Time) (w : World)
  : option (list Endpoint * option error) :=
  if serving now1 (c w) then Some (endpoints (c w), None) else None.

Definition Endpoints_exclusive (now2 : Time) (w : World)
  : (list Endpoint * option error) * World * list effect :=
  if serving now2 (c w) then ((endpoints (c w), None), w, [])
  else
    let '(w1, evs) := updateCache None w in
    (([], err (c w1)), w1, evs).

Definition endpointCache_Endpoints (now1 now2 : Time) (w : World)
  : (list Endpoint * option error) * World * list effect :=
  match Endpoints_shared now1 w with
  | Some r => (r, w, [])
  | None => Endpoints_exclusive now2 w
  end.

(** A history of the cache: the calls made on it, one after the other. *)
Inductive call : Type :=
  | CallUpdate (event : Event) (now : Time)
  | CallEndpoints (now1 now2 : Time).

Definition perform (k : call) (w : World)
  : World * list effect * list (list Endpoint * option error) :=
  match k with
  | CallUpdate event now =>
      let '(w', evs) := Update event now w in (w', evs, [])
  | CallEndpoints now1 now2 =>
      let '(r, w', evs) := endpointCache_Endpoints now1 now2 w in
      (w', evs, [r])
  end.

(** [run ks w]: the world after the calls [ks], what they did and what
    the [Endpoints] calls among them returned. *)
Fixpoint run (ks : list call) (w : World)
  : World * list effect * list (list Endpoint * option error) :=
  match ks with
  | [] => (w, [], [])
  | k :: rest =>
      let '(w1, evs1, rs1) := perform k w in
      let '(w2, evs2, rs2) := run rest w1 in
      (w2, evs1 ++ evs2, rs1 ++ rs2)
  end.

Definition is_read (k : call) : Prop :=
  match k with
  | CallEndpoints _ _ => True
  | CallUpdate _ _ => False
  end.

(** The calls that cannot end an error state whose deadline is
    [deadline]: an [Update] that carries an error, and an [Endpoints]
    that reads the clock before the deadline. *)
Definition keeps_error (deadline : Time) (k : call) : Prop :=
  match k with
  | CallUpdate event _ => is_Some (Err event)
  | CallEndpoints now1 _ => now1 < deadline
  end.

(** Counting in a history, per instance string: the [Close] calls on the
    entry cached under it, and the factory calls that made an entry with
    a closer for it. *)
Definition is_close (i : string) (ev : effect) : bool :=
  match ev with
  | EvClose j _ => bool_decide (i = j)
  | _ => false
  end.

Definition is_install (ev : effect) : bool :=
  match ev with
  | EvInstall _ => true
  | _ => false
  end.

Definition factory_failed (ev : effect) : bool :=
  match ev with
  | EvFactory _ r => bool_decide (is_Some (ferr r))
  | _ => false
  end.

Definition makes_closer (i : string) (ev : effect) : bool :=
  match ev with
  | EvFactory j r =>
      bool_decide (i = j) && bool_decide (ferr r = None)
        && bool_decide (is_Some (closer r))
  | _ => false
  end.

(** The [Close] call that dropping the entry under [i] takes: none if
    there is no entry or its closer is nil. *)
Definition entry_close (m : gmap string endpointCloser) (i : string)
  : list effect :=
  match m !! i with
  | Some sc =>
      match ec_Closer sc with
      | Some cl => [EvClose i cl]
      | None => []
      end
  | None => []
  end.

Definition holds_closer (m : gmap string endpointCloser) (i : string) : nat :=
  length (entry_close m i).

Definition closes (i : string) (evs : list effect) : nat :=
  length (filter (λ ev, is_close i ev = true) evs).

Definition made (i : string) (evs : list effect) : nat :=
  length (filter (λ ev, makes_closer i ev = true) evs).

Definition failures (evs : list effect) : nat :=
  length (filter (λ ev, factory_failed ev = true) evs).

End Cache.

(** *** The [Endpointer] interface and its two implementations *)

Class Endpointer (Endpoint S : Type) : Type :=
  Endpoints : S → (list Endpoint * option error) * S.

(** [FixedEndpointer] is the slice itself. *)
Abbreviation FixedEndpointer Endpoint := (list Endpoint) (only parsing).

#[global] Instance FixedEndpointer_Endpoints {Endpoint : Type}
  : Endpointer Endpoint (FixedEndpointer Endpoint) :=
  λ s, ((s, None), s).

(** [DefaultEndpointer.Endpoints] hands the call to its cache; the clock
    readings the cache takes are the parameters. *)
Definition DefaultEndpointer_Endpoints {Endpoint Closer FState : Type}
    (now1 now2 : Time)
  : Endpointer Endpoint (@World Endpoint Closer FState) :=
  λ w, let '(r, w', _) := endpointCache_Endpoints now1 now2 w in (r, w').

(** *** [NewEndpointer] and its options *)

(** An [EndpointerOption] edits the options in place. *)
Definition EndpointerOption : Type := endpointerOptions → endpointerOptions.

Definition InvalidateOnError (timeout : Duration) : EndpointerOption :=
  λ opts, {| invalidateOnError := true; invalidateTimeout := timeout |}.

(** The options [NewEndpointer] passes to its cache: the zero value,
    edited by each option in turn. *)
Definition NewEndpointer_options (options : list EndpointerOption)
  : endpointerOptions :=
  fold_left (λ opts opt, opt opts) options
    {| invalidateOnError := false; invalidateTimeout := 0 |}.

(** The cache of [NewEndpointer(src, f, logger, options...)], in a world
    with the given arrays and factory state. *)
Definition NewEndpointer {Endpoint Closer FState : Type}
    (f : @Factory Endpoint Closer FState) (options : list EndpointerOption)
    (h : store) (fs : FState) : @World Endpoint Closer FState :=
  {| c := newEndpointCache f (NewEndpointer_options options);
     heap := h; fstate := fs |}.

(** [DefaultEndpointer.receive]: the events that arrive on the channel
    until it is closed are passed to [Update] one by one, in the order
    of arrival; each comes with the clock reading its Update takes. *)
Fixpoint receive {Endpoint Closer FState : Type}
    (events : list (Event * Time)) (w : @World Endpoint Closer FState)
  : @World Endpoint Closer FState * list (@effect Endpoint Closer) :=
  match events with
  | [] => (w, [])
  | (event, now) :: rest =>
      let '(w1, evs1) := Update event now w in
      let '(w2, evs2) := receive rest w1 in
      (w2, evs1 ++ evs2)
  end.

(** The instance strings of the factory calls in a history, in order. *)
Definition factory_calls {Endpoint Closer : Type}
    (evs : list (@effect Endpoint Closer)) : list string :=
  omap (λ ev, match ev with EvFactory i _ => Some i | _ => None end) evs.

(** The instance strings under which a history closed an entry. *)
Definition close_calls {Endpoint Closer : Type}
    (evs : list (@effect Endpoint Closer)) : list string :=
  omap (λ ev, match ev with EvClose i _ => Some i | _ => None end) evs.

(** The [Update] calls of a history. *)
Definition is_update (k : call) : bool :=
  match k with
  | CallUpdate _ _ => true
  | CallEndpoints _ _ => false
  end.

(** The keys of a map in the order [sort.Strings] gives them. *)
Definition sorted_keys {A : Type} (m : gmap string A) : list string :=
  sort_list (elements (dom m)).

(** No array of the store repeats an instance string. *)
Definition distinct_arrays (h : store) : Prop :=
  ∀ p xs, h !! p = Some xs → NoDup xs.

(** The snapshot lists the endpoints of all entries of the map, in the
    lexicographic order of their keys. *)
Definition ordered_snapshot {Endpoint Closer FState : Type}
    (x : @endpointCache Endpoint Closer FState) : Prop :=
  endpoints x = populate (sorted_keys (cache x)) (cache x).

(** Every entry of the map is what a call of the factory for its key
    returned without error. *)
Definition from_factory {Endpoint Closer FState : Type}
    (f : @Factory Endpoint Closer FState)
    (m : gmap string (@endpointCloser Endpoint Closer)) : Prop :=
  ∀ i sc, m !! i = Some sc →
    ∃ fs, ferr (f i fs).1 = None
          ∧ sc = mkEC (service (f i fs).1) (closer (f i fs).1).

(** The snapshot holds the endpoints of the entries of the map, and
    nothing else. *)
Definition snapshot_is_entries {Endpoint Closer FState : Type}
    (x : @endpointCache Endpoint Closer FState) : Prop :=
  ∀ e, e ∈ endpoints x
       ↔ ∃ i sc, cache x !! i = Some sc ∧ ec_Endpoint sc = e.

(** An [Endpoints] call whose two critical sections are separated by
    Updates of the receiving goroutine: if the section under the read
    lock does not return, the events [between] are applied before the
    section under the write lock runs. *)
Definition Endpoints_interleaved {Endpoint Closer FState : Type}
    (now1 : Time) (between : list (Event * Time)) (now2 : Time)
    (w : @World Endpoint Closer FState)
  : (list Endpoint * option error) * @World Endpoint Closer FState
    * list (@effect Endpoint Closer) :=
  match Endpoints_shared now1 w with
  | Some r => (r, w, [])
  | None =>
      let '(w1, evs1) := receive between w in
      let '(r, w2, evs2) := Endpoints_exclusive now2 w1 in
      (r, w2, evs1 ++ evs2)
  end.

End sd.

(** ** Package [endpoint] *)

Module endpoint.

Section Chain.

(** [E] is [Endpoint[REQ, RES]]; a [Middleware] maps endpoints to
    endpoints. *)
Context {E : Type}.

Definition Middleware : Type := E → E.

(** [Chain(outer, others...)]: the returned middleware walks [others]
    from the last index down to 0, wrapping [next] each time, and
    applies [outer] last. *)
Definition Chain (outer : Middleware) (others : list Middleware)
  : Middleware :=
  λ next, outer (fold_left (λ next' m, m next') (reverse others) next).

End Chain.

End endpoint.

(** ** Package [sd/lb]: the balancers *)

Module lb.

(** A Go call either returns or panics. *)
Inductive outcome (A : Type) : Type :=
  | Return (a : A)
  | Panic.
Arguments Return {A} a.
Arguments Panic {A}.

(** [math/rand]'s generator: [Intn n] for [n > 0] draws from the state
    and moves it on. *)
Class Rand (R : Type) : Type := Intn : R → Z → Z * R.

Definition uint64_mod : Z := 2 ^ 64.

(** [atomic.AddUint64(&x, d)]: the new value. *)
Definition AddUint64 (x d : Z) : Z := (x + d) mod uint64_mod.

Section Balancers.

Context {Endpoint S R : Type} `{!sd.Endpointer Endpoint S} `{!Rand R}.

(** [endpoints[idx]] for an integer index: out of range panics. *)
Definition index (eps : list Endpoint) (idx : Z)
  : outcome (option Endpoint * option error) :=
  if idx <? 0 then Panic
  else match eps !! Z.to_nat idx with
       | Some e => Return (Some e, None)
       | None => Panic
       end.

Record random : Type := mkRandom {
  random_s : S;
  random_r : R;
}.

Definition NewRandom (s : S) (seeded : R) : random :=
  {| random_s := s; random_r := seeded |}.

Definition random_Endpoint (b : random)
  : outcome (option Endpoint * option error) * random :=
  let '((eps, er), s') := sd.Endpoints (random_s b) in
  match er with
  | Some e => (Return (None, Some e), {| random_s := s'; random_r := random_r b |})
  | None =>
      if Z.of_nat (length eps) <=? 0
      then (Return (None, Some ErrNoEndpoints),
            {| random_s := s'; random_r := random_r b |})
      else
        let '(i, r') := Intn (random_r b) (Z.of_nat (length eps)) in
        (index eps i, {| random_s := s'; random_r := r' |})
  end.

Record roundRobin : Type := mkRoundRobin {
  rr_s : S;
  rr_c : Z;
}.

Definition NewRoundRobin (s : S) : roundRobin := {| rr_s := s; rr_c := 0 |}.

Definition roundRobin_Endpoint (rr : roundRobin)
  : outcome (option Endpoint * option error) * roundRobin :=
  let '((eps, er), s') := sd.Endpoints (rr_s rr) in
  match er with
  | Some e => (Return (None, Some e), {| rr_s := s'; rr_c := rr_c rr |})
  | None =>
      if Z.of_nat (length eps) <=? 0
      then (Return (None, Some ErrNoEndpoints),
            {| rr_s := s'; rr_c := rr_c rr |})
      else
        let c' := AddUint64 (rr_c rr) 1 in
        let old := (c' - 1) mod uint64_mod in
        let idx := old mod Z.of_nat (length eps) in
        (index eps idx, {| rr_s := s'; rr_c := c' |})
  end.

End Balancers.

(** The [Balancer] interface, and the two balancers as its
    implementations. *)
Class Balancer (Endpoint B : Type) : Type :=
  Balancer_Endpoint : B → outcome (option Endpoint * option error) * B.

#[global] Instance random_Balancer {Endpoint S R : Type}
    `{!sd.Endpointer Endpoint S} `{!Rand R}
  : Balancer Endpoint (@random S R) := random_Endpoint.

#[global] Instance roundRobin_Balancer {Endpoint S : Type}
    `{!sd.Endpointer Endpoint S}
  : Balancer Endpoint (@roundRobin S) := roundRobin_Endpoint.

(** [n] calls of [Endpoint()] in a row: what each returned, and the
    balancer afterwards. *)
Fixpoint calls {Endpoint B : Type} `{!Balancer Endpoint B} (n : nat) (b : B)
  : list (outcome (option Endpoint * option error)) * B :=
  match n with
  | O => ([], b)
  | S n' =>
      let '(r, b1) := Balancer_Endpoint b in
      let '(rs, b2) := calls n' b1 in
      (r :: rs, b2)
  end.

(** *** The retry executor *)

Section Retry.

Context {Endpoint Response B Env : Type} `{!Balancer Endpoint B}.

(** Modelled from the spec: the Callable Operation of section 2 as the
    retry executor sees it.  [retry.go] is not among the sources; the
    design document says an operation takes a request and a
    deadline-bound scope and returns a response or an error.  Invoked,
    it either replies after some time, with a response or an error, or
    does not reply at all. *)
Inductive reply : Type :=
  | Replies (after : Duration) (res : Response + error)
  | Blocks.

(** Modelled from the spec: the two variants of section 4.4, a fixed
    attempt count or a continuation callback
    [(attemptIndex, error) → (shouldContinue, overrideError)], nil
    allowed. *)
Inductive policy : Type :=
  | FixedCount (maxAttempts : Z)
  | WithCallback (cb : option (Z → error → bool * option error)).

(** Modelled from the spec: what section 4.4 says happens on failure.
    Fixed count: continue unless [attemptIndex == maxAttempts].
    Callback: it decides, and an override error it supplies becomes
    [final]; a nil callback always continues.  The result is whether to
    continue and the [final] error of a stop. *)
Definition on_failure (p : policy) (attemptIndex : Z) (e : error)
  : bool * error :=
  match p with
  | FixedCount maxAttempts => (negb (attemptIndex =? maxAttempts), e)
  | WithCallback None => (true, e)
  | WithCallback (Some cb) =>
      let '(shouldContinue, overrideError) := cb attemptIndex e in
      (shouldContinue, default e overrideError)
  end.

(** Modelled from the spec: the single deadline of an invocation,
    section 4.4, "derive a single deadline-bound scope from timeout (or
    the tighter of that and any caller-supplied deadline)".  Times are
    measured from the start of the invocation. *)
Definition scope (timeout : Duration) (outer : option Duration) : Duration :=
  match outer with
  | None => timeout
  | Some d => Z.min timeout d
  end.

(** Modelled from the spec: one pass through the loop of section 4.4,
    [next] being the loop itself for the attempt after this one.
    Before an attempt the shared deadline is checked, and if it has
    expired the loop stops with the deadline's own error.  An attempt
    asks the balancer for an operation, failing at once with the
    balancer's error if it gives none, and invokes the operation within
    the shared scope: if the operation has not replied when the deadline
    expires, the loop returns the deadline's error then.  A response is
    returned; an error is recorded and [on_failure] decides between the
    next attempt and a [RetryError] with the history.  [now] is the time
    since the start of the invocation. *)
Definition retry_pass
    (next : Z → Duration → list error → B → Env
            → option (outcome (option Response * option error)))
    (invoke : Endpoint → Env → reply * Env)
    (p : policy) (deadline : Duration) (attemptIndex : Z) (now : Duration)
    (attempts : list error) (b : B) (env : Env)
  : option (outcome (option Response * option error)) :=
  if deadline <=? now then Some (Return (None, Some DeadlineExceeded))
  else
    let failed (at_ : Duration) (e : error) (b' : B) (env' : Env) :=
      let '(shouldContinue, final) := on_failure p attemptIndex e in
      if shouldContinue
      then next (attemptIndex + 1) at_ (attempts ++ [e]) b' env'
      else Some (Return (None, Some (RetryError (attempts ++ [e]) final)))
    in
    let '(sel, b') := Balancer_Endpoint b in
    match sel with
    | Panic => Some Panic
    | Return (_, Some e) => failed now e b' env
    | Return (None, None) => Some Panic
    | Return (Some ep, None) =>
        let '(r, env') := invoke ep env in
        match r with
        | Blocks => Some (Return (None, Some DeadlineExceeded))
        | Replies after res =>
            if deadline <=? now + after
            then Some (Return (None, Some DeadlineExceeded))
            else
              match res with
              | inl response => Some (Return (Some response, None))
              | inr e => failed (now + after) e b' env'
              end
        end
    end.

(** Modelled from the spec: the loop.  [fuel] bounds the number of
    attempts the model follows; the result is [None] when it is used
    up. *)
Fixpoint retry_loop (fuel : nat) (invoke : Endpoint → Env → reply * Env)
    (p : policy) (deadline : Duration) (attemptIndex : Z) (now : Duration)
    (attempts : list error) (b : B) (env : Env)
  : option (outcome (option Response * option error)) :=
  match fuel with
  | O => None
  | S fuel' =>
      retry_pass (retry_loop fuel' invoke p deadline) invoke p deadline
        attemptIndex now attempts b env
  end.

(** Modelled from the spec: an operation that, invoked at [now], has
    not replied when the deadline expires. *)
Definition too_late (deadline now : Duration) (r : reply) : Prop :=
  match r with
  | Replies after _ => deadline ≤ now + after
  | Blocks => True
  end.

(** Modelled from the spec: "the shared deadline expires before any
    attempt succeeds", said of the loop about to make attempt
    [attemptIndex] at time [now].  Either the deadline has expired at
    the check before the attempt, or it expires while the operation of
    the attempt has not replied, or the attempt fails before the
    deadline, [on_failure] continues, and the same holds of the loop
    after it. *)
Inductive expires (invoke : Endpoint → Env → reply * Env) (p : policy)
    (deadline : Duration)
  : Z → Duration → B → Env → Prop :=
  | expires_at_check attemptIndex now b env :
      deadline ≤ now →
      expires invoke p deadline attemptIndex now b env
  | expires_in_attempt attemptIndex now b env ep b' r env' :
      now < deadline →
      Balancer_Endpoint b = (Return (Some ep, None), b') →
      invoke ep env = (r, env') →
      too_late deadline now r →
      expires invoke p deadline attemptIndex now b env
  | expires_after_refusal attemptIndex now b env o e b' :
      now < deadline →
      Balancer_Endpoint b = (Return (o, Some e), b') →
      (on_failure p attemptIndex e).1 = true →
      expires invoke p deadline (attemptIndex + 1) now b' env →
      expires invoke p deadline attemptIndex now b env
  | expires_after_failure attemptIndex now b env ep b' after e env' :
      now < deadline →
      Balancer_Endpoint b = (Return (Some ep, None), b') →
      invoke ep env = (Replies after (inr e), env') →
      now + after < deadline →
      (on_failure p attemptIndex e).1 = true →
      expires invoke p deadline (attemptIndex + 1) (now + after) b' env' →
      expires invoke p deadline attemptIndex now b env.

(** Modelled from the spec: [Retry(maxAttempts, timeout, balancer)] and
    [RetryWithCallback(timeout, balancer, cb)] of section 4.4, invoked
    with a caller whose own deadline, if any, is [outer]. *)
Definition Retry (invoke : Endpoint → Env → reply * Env) (maxAttempts : Z)
    (timeout : Duration) (b : B) (fuel : nat) (outer : option Duration)
    (env : Env)
  : option (outcome (option Response * option error)) :=
  retry_loop fuel invoke (FixedCount maxAttempts) (scope timeout outer)
    1 0 [] b env.

Definition RetryWithCallback (invoke : Endpoint → Env → reply * Env)
    (timeout : Duration) (b : B)
    (cb : option (Z → error → bool * option error))
    (fuel : nat) (outer : option Duration) (env : Env)
  : option (outcome (option Response * option error)) :=
  retry_loop fuel invoke (WithCallback cb) (scope timeout outer)
    1 0 [] b env.

End Retry.

End lb.

(** ** The callers in the examples *)

Module examples.

(** [strings.Split(s, ",")]: the pieces of [s] between the commas; a
    string without a comma, the empty one included, is one piece. *)
Fixpoint Split_comma (s : string) : list string :=
  match s with
  | EmptyString => [EmptyString]
  | String ch rest =>
      if Ascii.eqb ch ","
      then EmptyString :: Split_comma rest
      else
        match Split_comma rest with
        | piece :: pieces => String ch piece :: pieces
        | [] => [String ch EmptyString]
        end
  end.

(** [split] of [stringsvc3/proxying.go]: split at the commas and trim
    each piece with [strings.TrimSpace], which is a parameter here. *)
Definition split (TrimSpace : string → string) (s : string) : list string :=
  TrimSpace <$> Split_comma s.


(** [factoryFor] of [profilesvc/client]: the endpoint is made from the
    service [MakeClientEndpoints] builds for the instance, the closer is
    nil, and an error of [MakeClientEndpoints] is returned with a nil
    endpoint, which is [nil_endpoint]. *)
Definition factoryFor {Endpoint Closer FState Service : Type}
    (nil_endpoint : Endpoint)
    (MakeClientEndpoints : string → Service + error)
    (makeEndpoint : Service → Endpoint)
  : @sd.Factory Endpoint Closer FState :=
  λ instance fs,
    match MakeClientEndpoints instance with
    | inr e => (sd.mkResult nil_endpoint None (Some e), fs)
    | inl service => (sd.mkResult (makeEndpoint service) None None, fs)
    end.

End examples.

(** ** Sample values *)

Module Samples.

Import sd lb.

(** A factory that fails on the instance [bad], and otherwise makes the
    endpoint and the closer numbered by the calls made so far. *)
Definition fac : @Factory nat nat nat := λ instance n,
  if String.eqb instance "bad"
  then (mkResult 0%nat None (Some (errors_New "dial failed")), S n)
  else (mkResult n (Some n) None, S n).

(** A fresh cache with invalidation after 10 time units, and instance
    arrays as a discovery source might send them; the last one repeats
    an instance. *)
Definition fresh : @World nat nat nat :=
  {| c := newEndpointCache fac (mkOptions true 10);
     heap := {[ 1%positive := ["b"; "a"; "c"]%string;
                2%positive := ["c"; "bad"; "a"]%string;
                3%positive := ["c"; "a"; "b"]%string;
                4%positive := ["a"; "a"]%string ]};
     fstate := 0%nat |}.

(** The cache after the instances [b, a, c] arrived. *)
Definition warm : @World nat nat nat :=
  (Update (mkEvent (Some 1%positive) None) 0 fresh).1.

(** The cache after the discovery source then reported an error at
    time 100. *)
Definition failing : @World nat nat nat :=
  (Update (mkEvent None (Some (errors_New "connection lost"))) 100 warm).1.

(** A fresh cache over arrays none of which repeats an instance. *)
Definition tidy : @World nat nat nat :=
  {| c := newEndpointCache fac (mkOptions true 10);
     heap := {[ 1%positive := ["b"; "a"; "c"]%string;
                2%positive := ["c"; "bad"; "a"]%string;
                3%positive := ["c"; "a"; "b"]%string ]};
     fstate := 0%nat |}.

(** A history of the cache: instances arrive, are read, change, and the
    source fails. *)
Definition history : list call :=
  [CallUpdate (mkEvent (Some 1%positive) None) 0;
   CallEndpoints 1 1;
   CallUpdate (mkEvent (Some 2%positive) None) 5;
   CallUpdate (mkEvent None (Some (errors_New "connection lost"))) 100;
   CallEndpoints 111 111;
   CallUpdate (mkEvent (Some 3%positive) None) 120].

(** A generator that counts. *)
#[global] Instance counter_Rand : Rand Z := λ r n, (r mod n, r + 1).

(** Operations named by numbers: operation [n] replies [ok] after [n]
    time units. *)
Definition reply_after : nat → unit → @reply string * unit :=
  λ ep _, (Replies (Z.of_nat ep) (inl "ok"%string), tt).

(** The three operations of the retry tests: the first two fail, the
    third succeeds; each takes one time unit. *)
Definition three_ops : nat → unit → @reply string * unit :=
  λ ep _,
    match ep with
    | 1%nat => (Replies 1 (inr (errors_New "error one")), tt)
    | 2%nat => (Replies 1 (inr (errors_New "error two")), tt)
    | _ => (Replies 1 (inl "ok"%string), tt)
    end.

(** Operations that fail after as many time units as their number. *)
Definition fail_after : nat → unit → @reply string * unit :=
  λ ep _, (Replies (Z.of_nat ep) (inr (errors_New "failed")), tt).

End Samples.

(** * Properties *)

(** ** The order of [sort.Strings] *)

Lemma string_le_iff s1 s2 :
  string_le s1 s2 ↔ s1 = s2 ∨ String_as_OT.lt s1 s2.
Proof.
  unfold string_le, String.leb.
  destruct (String.compare s1 s2) eqn:E.
  - apply String_as_OT.cmp_eq in E. naive_solver.
  - apply String_as_OT.cmp_lt in E. naive_solver.
  - split; [done|]. intros [->|H].
    + assert (String.compare s2 s2 = Eq) by (by apply String_as_OT.cmp_eq).
      congruence.
    + apply String_as_OT.cmp_lt in H. unfold String_as_OT.cmp in H.
      congruence.
Qed.

#[global] Instance string_le_refl : Reflexive string_le.
Proof. intros s. apply string_le_iff. by left. Qed.

#[global] Instance string_le_trans : Transitive string_le.
Proof.
  intros x y z [->|Hxy]%string_le_iff [->|Hyz]%string_le_iff;
    apply string_le_iff; auto.
  right. by eapply String_as_OT.lt_trans.
Qed.

#[global] Instance string_le_antisym : AntiSymm (=) string_le.
Proof. intros x y. apply String.leb_antisym. Qed.

#[global] Instance string_le_total : Total string_le.
Proof. intros x y. apply String.leb_total. Qed.

Lemma sort_list_sorted l : Sorted string_le (sort_list l).
Proof. apply Sorted_merge_sort, _. Qed.

Lemma sort_list_perm l : sort_list l ≡ₚ l.
Proof. apply merge_sort_Permutation. Qed.

(** Sorting forgets the order of arrival. *)
Lemma sort_list_unique l1 l2 : l1 ≡ₚ l2 → sort_list l1 = sort_list l2.
Proof.
  intros Hp. apply (Sorted_unique string_le); auto using sort_list_sorted.
  by rewrite !sort_list_perm.
Qed.

Lemma sort_list_elem_of x l : x ∈ sort_list l ↔ x ∈ l.
Proof. by rewrite sort_list_perm. Qed.

Lemma sort_list_NoDup l : NoDup (sort_list l) ↔ NoDup l.
Proof. by rewrite sort_list_perm. Qed.

Lemma sort_list_length l : length (sort_list l) = length l.
Proof. by rewrite sort_list_perm. Qed.

(** What the callee reads after sorting in place. *)
Lemma slice_get_sort_Strings h s :
  slice_get (sort_Strings s h) s = sort_list (slice_get h s).
Proof.
  destruct s as [p|]; simpl; [|done].
  rewrite lookup_alter_eq. by destruct (h !! p).
Qed.

Lemma sort_Strings_lookup_ne h p q :
  p ≠ q → sort_Strings (Some p) h !! q = h !! q.
Proof. intros. simpl. by rewrite lookup_alter_ne. Qed.

(** ** The endpoint cache *)

Import sd.

Section CacheFacts.

Context {Endpoint Closer FState : Type}.

Implicit Types (f : @Factory Endpoint Closer FState).
Implicit Types (old new : gmap string (@endpointCloser Endpoint Closer)).
Implicit Types (fs : FState) (l : list string) (i j : string).
Implicit Types (evs : list (@effect Endpoint Closer)).
Implicit Types (w : @World Endpoint Closer FState).

(** *** The first loop *)

(** Induction along the iterations of the loop: one case per path
    through its body. *)
Lemma produce_rect f
    (P : list string → gmap string endpointCloser → gmap string endpointCloser →
         FState →
         gmap string endpointCloser * gmap string endpointCloser * FState
           * list effect → Prop) :
  (∀ old new fs, P [] old new fs (old, new, fs, [])) →
  (∀ a l old new fs sc o n s evs,
      old !! a = Some sc →
      produce f l (delete a old) (<[a:=sc]> new) fs = (o, n, s, evs) →
      P l (delete a old) (<[a:=sc]> new) fs (o, n, s, evs) →
      P (a :: l) old new fs (o, n, s, evs)) →
  (∀ a l old new fs r fs1 e o n s evs,
      old !! a = None → f a fs = (r, fs1) → ferr r = Some e →
      produce f l old new fs1 = (o, n, s, evs) →
      P l old new fs1 (o, n, s, evs) →
      P (a :: l) old new fs
        (o, n, s, EvFactory a r :: EvLogInstance a e :: evs)) →
  (∀ a l old new fs r fs1 o n s evs,
      old !! a = None → f a fs = (r, fs1) → ferr r = None →
      produce f l old (<[a:=mkEC (service r) (closer r)]> new) fs1
        = (o, n, s, evs) →
      P l old (<[a:=mkEC (service r) (closer r)]> new) fs1 (o, n, s, evs) →
      P (a :: l) old new fs (o, n, s, EvFactory a r :: evs)) →
  ∀ l old new fs, P l old new fs (produce f l old new fs).
Proof.
  intros Hnil Hcarry Hfail Hmake.
  induction l as [|a l IH]; intros old new fs; simpl; [apply Hnil|].
  destruct (old !! a) as [sc|] eqn:Ha.
  - specialize (IH (delete a old) (<[a:=sc]> new) fs).
    destruct (produce f l _ _ fs) as [[[o n] s] evs] eqn:Hp. eauto.
  - destruct (f a fs) as [r fs1] eqn:Hf.
    destruct (ferr r) as [e|] eqn:He.
    + specialize (IH old new fs1).
      destruct (produce f l old new fs1) as [[[o n] s] evs] eqn:Hp. eauto.
    + specialize (IH old (<[a:=mkEC (service r) (closer r)]> new) fs1).
      destruct (produce f l old _ fs1) as [[[o n] s] evs] eqn:Hp. eauto.
Qed.

(** The old map loses exactly the keys that were listed. *)
Lemma produce_old f l old new fs i :
  (produce f l old new fs).1.1.1 !! i
  = if decide (i ∈ l) then None else old !! i.
Proof.
  revert l old new fs.
  apply (produce_rect f (λ l old new fs res,
           res.1.1.1 !! i = if decide (i ∈ l) then None else old !! i));
    cbn [fst snd].
  - intros. case_decide; [set_solver|done].
  - intros a l old new fs sc o n s evs Ha _ ->.
    destruct (decide (i = a)) as [->|Hne].
    + rewrite lookup_delete_eq. repeat case_decide; set_solver.
    + rewrite lookup_delete_ne by done. repeat case_decide; set_solver.
  - intros a l old new fs r fs1 e o n s evs Ha _ _ _ ->.
    repeat case_decide; try done; set_solver.
  - intros a l old new fs r fs1 o n s evs Ha _ _ _ ->.
    repeat case_decide; try done; set_solver.
Qed.

(** A key that is not listed keeps its entry of the new map. *)
Lemma produce_new_other f l old new fs i :
  i ∉ l → (produce f l old new fs).1.1.2 !! i = new !! i.
Proof.
  revert l old new fs.
  apply (produce_rect f (λ l old new fs res,
           i ∉ l → res.1.1.2 !! i = new !! i)); simpl; [done|..].
  - intros a l old new fs sc o n s evs _ _ IH Hi.
    rewrite IH by set_solver. apply lookup_insert_ne. set_solver.
  - intros a l old new fs r fs1 e o n s evs _ _ _ _ IH Hi.
    apply IH. set_solver.
  - intros a l old new fs r fs1 o n s evs _ _ _ _ IH Hi.
    rewrite IH by set_solver. apply lookup_insert_ne. set_solver.
Qed.

(** An entry of the old map whose key is listed once is carried over. *)
Lemma produce_carry f l old new fs i sc :
  NoDup l → i ∈ l → old !! i = Some sc →
  (produce f l old new fs).1.1.2 !! i = Some sc.
Proof.
  revert l old new fs.
  apply (produce_rect f (λ l old new fs res,
           NoDup l → i ∈ l → old !! i = Some sc → res.1.1.2 !! i = Some sc));
    simpl.
  - intros ??? _ Hi. by apply elem_of_nil in Hi.
  - intros a l old new fs sc' o n s evs Ha Hp IH Hnd Hi Hsc.
    apply NoDup_cons in Hnd as [Hal Hnd].
    destruct (decide (i = a)) as [->|Hne].
    + pose proof (produce_new_other f l (delete a old) (<[a:=sc']> new) fs a Hal)
        as Ho.
      rewrite Hp in Ho. simpl in Ho. rewrite Ho, lookup_insert_eq. congruence.
    + apply IH; [done|set_solver|]. by rewrite lookup_delete_ne.
  - intros a l old new fs r fs1 e o n s evs Ha _ _ _ IH Hnd Hi Hsc.
    apply NoDup_cons in Hnd as [Hal Hnd].
    apply IH; [done| |done]. set_solver.
  - intros a l old new fs r fs1 o n s evs Ha _ _ _ IH Hnd Hi Hsc.
    apply NoDup_cons in Hnd as [Hal Hnd].
    apply IH; [done| |done]. set_solver.
Qed.


(** The loop calls the factory and the logger, nothing else. *)
Lemma produce_effects f l old new fs :
  Forall (λ ev, is_install ev = false ∧ ∀ i, is_close i ev = false)
         (produce f l old new fs).2.
Proof.
  revert l old new fs.
  apply (produce_rect f (λ l old new fs res,
           Forall (λ ev, is_install ev = false ∧ ∀ i, is_close i ev = false)
                  res.2)); cbn [fst snd]; auto.
Qed.

(** Every factory call is for a listed instance, and, when the list has
    no repetition, for one the cache did not hold. *)
Lemma produce_factory f l old new fs j r :
  EvFactory j r ∈ (produce f l old new fs).2 →
  j ∈ l ∧ (NoDup l → old !! j = None).
Proof.
  revert l old new fs.
  apply (produce_rect f (λ l old new fs res,
           EvFactory j r ∈ res.2 → j ∈ l ∧ (NoDup l → old !! j = None)));
    cbn [fst snd].
  - intros ??? H. by apply elem_of_nil in H.
  - intros a l old new fs sc o n s evs Ha _ IH H.
    destruct (IH H) as [Hj Hold]. split; [set_solver|].
    intros [Hal Hnd]%NoDup_cons. rewrite <- Hold by done.
    symmetry. apply lookup_delete_ne. set_solver.
  - intros a l old new fs r' fs1 e o n s evs Ha _ _ _ IH H.
    rewrite !elem_of_cons in H. destruct H as [H|[H|H]]; [|done|].
    + injection H as -> ->. split; [set_solver|done].
    + destruct (IH H) as [Hj Hold]. split; [set_solver|].
      intros [Hal Hnd]%NoDup_cons. auto.
  - intros a l old new fs r' fs1 o n s evs Ha _ _ _ IH H.
    rewrite elem_of_cons in H. destruct H as [H|H].
    + injection H as -> ->. split; [set_solver|done].
    + destruct (IH H) as [Hj Hold]. split; [set_solver|].
      intros [Hal Hnd]%NoDup_cons. auto.
Qed.

(** *** The third loop *)

Lemma populate_omap l new :
  populate l new = omap (λ k, ec_Endpoint <$> new !! k) l.
Proof.
  induction l as [|a l IH]; simpl; [done|].
  destruct (new !! a); simpl; by rewrite IH.
Qed.

Lemma populate_elem_of l new i sc :
  i ∈ l → new !! i = Some sc → ec_Endpoint sc ∈ populate l new.
Proof.
  intros Hi Hsc. rewrite populate_omap. apply list_elem_of_omap.
  exists i. by rewrite Hsc.
Qed.

(** With no repetition in the list, every instance is in the snapshot
    but those the factory failed on. *)
Lemma produce_populate_length f l old new fs :
  NoDup l → (∀ i, i ∈ l → new !! i = None) →
  let res := produce f l old new fs in
  (length (populate l res.1.1.2) + failures res.2)%nat = length l.
Proof.
  unfold failures.
  revert l old new fs.
  apply (produce_rect f (λ l old new fs res,
    NoDup l → (∀ i, i ∈ l → new !! i = None) →
    (length (populate l res.1.1.2)
     + length (filter (λ ev, factory_failed ev = true) res.2))%nat = length l));
    cbn [fst snd].
  - done.
  - intros a l old new fs sc o n s evs Ha Hp IH [Hal Hnd]%NoDup_cons Hnew.
    pose proof (produce_new_other f l (delete a old) (<[a:=sc]> new) fs a Hal)
      as Ho.
    rewrite Hp in Ho. simpl in Ho. simpl.
    rewrite Ho, lookup_insert_eq. simpl. rewrite IH; [done|done|].
    intros i Hi. rewrite lookup_insert_ne by set_solver. apply Hnew. set_solver.
  - intros a l old new fs r fs1 e o n s evs Ha Hf He Hp IH
      [Hal Hnd]%NoDup_cons Hnew.
    pose proof (produce_new_other f l old new fs1 a Hal) as Ho.
    rewrite Hp in Ho. simpl in Ho. simpl.
    rewrite Ho, Hnew by left.
    rewrite filter_cons_True by (simpl; rewrite He; by apply bool_decide_eq_true).
    rewrite filter_cons_False by done. simpl.
    rewrite <- Nat.add_succ_comm. simpl. rewrite IH; auto. set_solver.
  - intros a l old new fs r fs1 o n s evs Ha Hf He Hp IH
      [Hal Hnd]%NoDup_cons Hnew.
    pose proof (produce_new_other f l old (<[a:=mkEC (service r) (closer r)]> new)
                  fs1 a Hal) as Ho.
    rewrite Hp in Ho. simpl in Ho. simpl.
    rewrite Ho, lookup_insert_eq. simpl.
    rewrite filter_cons_False.
    2:{ simpl. rewrite He. intros [? ?]%bool_decide_eq_true. done. }
    rewrite IH; [done|done|].
    intros i Hi. rewrite lookup_insert_ne by set_solver. apply Hnew. set_solver.
Qed.


(** *** The second loop *)

Lemma closeLeftover_insert (m : gmap string (@endpointCloser Endpoint Closer)) k x :
  m !! k = None →
  closeLeftover (<[k:=x]> m)
  ≡ₚ option_list (EvClose k <$> ec_Closer x) ++ closeLeftover m.
Proof.
  intros Hk. unfold closeLeftover.
  rewrite (map_to_list_insert m k x Hk). simpl.
  by destruct (ec_Closer x).
Qed.

(** Each entry that is left is closed once, if it has a closer. *)
Lemma closeLeftover_filter (m : gmap string (@endpointCloser Endpoint Closer)) i :
  filter (λ ev, is_close i ev = true) (closeLeftover m) = entry_close m i.
Proof.
  assert (filter (λ ev, is_close i ev = true) (closeLeftover m)
          ≡ₚ entry_close m i) as Hperm.
  { induction m as [|k x m Hk IH] using map_ind.
    - unfold closeLeftover, entry_close.
      by rewrite map_to_list_empty, lookup_empty.
    - rewrite (closeLeftover_insert m k x Hk), filter_app, IH.
      unfold entry_close. destruct (decide (i = k)) as [->|Hne].
      + rewrite lookup_insert_eq, Hk, app_nil_r.
        destruct (ec_Closer x); simpl; [|done].
        by rewrite filter_cons_True by (simpl; by apply bool_decide_eq_true).
      + rewrite lookup_insert_ne by done.
        destruct (ec_Closer x); simpl; [|done].
        rewrite filter_cons_False; [done|].
        simpl. rewrite bool_decide_eq_true. done. }
  unfold entry_close in *.
  destruct (m !! i) as [sc|]; [destruct (ec_Closer sc)|].
  - by apply Permutation_singleton_r.
  - by apply Permutation_nil_r.
  - by apply Permutation_nil_r.
Qed.

Lemma closeLeftover_not_install (m : gmap string (@endpointCloser Endpoint Closer)) :
  Forall (λ ev, is_install ev = false) (closeLeftover m).
Proof.
  apply Forall_forall. intros ev (kv & _ & H)%list_elem_of_omap.
  destruct (ec_Closer kv.2); simplify_eq/=. done.
Qed.

Lemma closeLeftover_empty :
  closeLeftover (∅ : gmap string (@endpointCloser Endpoint Closer)) = [].
Proof. unfold closeLeftover. by rewrite map_to_list_empty. Qed.

Lemma closes_app i evs1 evs2 :
  closes i (evs1 ++ evs2) = (closes i evs1 + closes i evs2)%nat.
Proof. unfold closes. by rewrite filter_app, length_app. Qed.

Lemma made_app i evs1 evs2 :
  made i (evs1 ++ evs2) = (made i evs1 + made i evs2)%nat.
Proof. unfold made. by rewrite filter_app, length_app. Qed.

Lemma produce_closes f l old new fs i :
  closes i (produce f l old new fs).2 = 0%nat.
Proof.
  unfold closes. apply length_zero_iff_nil.
  induction (produce_effects f l old new fs) as [|ev evs [_ Hev] _ IH];
    [done|].
  rewrite filter_cons_False; [done|]. by rewrite Hev.
Qed.

(** Closers are neither duplicated nor invented by the first loop:
    what the two maps hold afterwards was held before or made by the
    factory. *)
Lemma produce_holds f l old new fs i :
  let res := produce f l old new fs in
  (holds_closer res.1.1.1 i + holds_closer res.1.1.2 i
   ≤ made i res.2 + holds_closer old i + holds_closer new i)%nat.
Proof.
  revert l old new fs.
  apply (produce_rect f (λ l old new fs res,
    (holds_closer res.1.1.1 i + holds_closer res.1.1.2 i
     ≤ made i res.2 + holds_closer old i + holds_closer new i)%nat));
    cbn [fst snd].
  - intros. unfold made. simpl. lia.
  - intros a l old new fs sc o n s evs Ha _ IH.
    etrans; [apply IH|]. unfold holds_closer, entry_close.
    destruct (decide (i = a)) as [->|Hne].
    + rewrite lookup_delete_eq, lookup_insert_eq, Ha. simpl. lia.
    + rewrite lookup_delete_ne, lookup_insert_ne by done. lia.
  - intros a l old new fs r fs1 e o n s evs Ha _ He _ IH.
    etrans; [apply IH|]. unfold made.
    rewrite !filter_cons. repeat case_decide; simpl; lia.
  - intros a l old new fs r fs1 o n s evs Ha _ He _ IH.
    etrans; [apply IH|]. unfold made, holds_closer, entry_close.
    rewrite filter_cons.
    destruct (decide (i = a)) as [->|Hne].
    + rewrite lookup_insert_eq. simpl.
      destruct (closer r) as [cl|] eqn:Hcl.
      * rewrite decide_True; [simpl; lia|].
        simpl. rewrite He.
        rewrite !bool_decide_eq_true_2; by eauto.
      * case_decide; simpl; lia.
    + rewrite lookup_insert_ne by done. case_decide; simpl; lia.
Qed.


(** *** [updateCache] as a whole *)

Lemma updateCache_unfold s w :
  let l := sort_list (slice_get (heap w) s) in
  let res := produce (factory (c w)) l (cache (c w)) ∅ (fstate w) in
  updateCache s w
  = ({| c := {| options := options (c w); factory := factory (c w);
                cache := res.1.1.2; err := err (c w);
                endpoints := populate l res.1.1.2;
                invalidateDeadline := invalidateDeadline (c w) |};
        heap := sort_Strings s (heap w); fstate := res.1.2 |},
     res.2 ++ closeLeftover res.1.1.1
       ++ [EvInstall (populate l res.1.1.2)]).
Proof.
  unfold updateCache. rewrite slice_get_sort_Strings. simpl.
  by destruct (produce _ _ _ _ _) as [[[o n] fs'] evs].
Qed.


(** An error-free [Update] is [updateCache] followed by [c.err = nil]. *)
Lemma Update_ok s now w :
  Update (mkEvent s None) now w
  = (with_c (set_err None (c (updateCache s w).1)) (updateCache s w).1,
     (updateCache s w).2).
Proof. unfold Update. simpl. by destruct (updateCache s w). Qed.

Lemma Update_ok_c s now w :
  let l := sort_list (slice_get (heap w) s) in
  let res := produce (factory (c w)) l (cache (c w)) ∅ (fstate w) in
  c (Update (mkEvent s None) now w).1
  = {| options := options (c w); factory := factory (c w);
       cache := res.1.1.2; err := None;
       endpoints := populate l res.1.1.2;
       invalidateDeadline := invalidateDeadline (c w) |}.
Proof. rewrite Update_ok. simpl. by rewrite updateCache_unfold. Qed.

Lemma Update_ok_effects s now w :
  let l := sort_list (slice_get (heap w) s) in
  let res := produce (factory (c w)) l (cache (c w)) ∅ (fstate w) in
  (Update (mkEvent s None) now w).2
  = res.2 ++ closeLeftover res.1.1.1 ++ [EvInstall (populate l res.1.1.2)].
Proof. rewrite Update_ok. simpl. by rewrite updateCache_unfold. Qed.

Lemma Update_ok_heap s now w :
  heap (Update (mkEvent s None) now w).1 = sort_Strings s (heap w).
Proof. rewrite Update_ok. simpl. by rewrite updateCache_unfold. Qed.

(** While no error is recorded, [Endpoints] returns the snapshot and
    touches nothing, whatever the clock says. *)
Lemma Endpoints_no_error now1 now2 w :
  err (c w) = None →
  endpointCache_Endpoints now1 now2 w = ((endpoints (c w), None), w, []).
Proof.
  intros He. unfold endpointCache_Endpoints, Endpoints_shared, serving.
  by rewrite He.
Qed.

(** C10: an error-free [Update] sorts the caller's instance slice in
    place.  After the call the array that [event.Instances] refers to
    holds the same strings permuted into lexicographic order; no other
    array of the store is touched. *)
Theorem C10_update_sorts_callers_slice p xs now w :
  heap w !! p = Some xs →
  let w' := (Update (mkEvent (Some p) None) now w).1 in
  heap w' !! p = Some (sort_list xs)
  ∧ Sorted string_le (sort_list xs)
  ∧ sort_list xs ≡ₚ xs
  ∧ ∀ q, q ≠ p → heap w' !! q = heap w !! q.
Proof.
  intros Hp w'. subst w'. rewrite Update_ok_heap.
  split_and!.
  - simpl. by rewrite lookup_alter_eq, Hp.
  - apply sort_list_sorted.
  - apply sort_list_perm.
  - intros q Hq. by apply sort_Strings_lookup_ne.
Qed.

(** C2: after an error-free [Update] the snapshot lists the endpoints
    of the cached entries in the lexicographic order of their instance
    strings.  Two error-free Updates whose slices hold the same
    instances in different orders of arrival go through them in the
    same sorted order, so both snapshots follow that one order; and if
    the two start from the same cache they leave the same cache, with
    the same snapshot, having made the same calls. *)
Theorem C2_snapshot_order_deterministic s1 s2 now1 now2 w1 w2 :
  slice_get (heap w1) s1 ≡ₚ slice_get (heap w2) s2 →
  let sorted := sort_list (slice_get (heap w1) s1) in
  let r1 := Update (mkEvent s1 None) now1 w1 in
  let r2 := Update (mkEvent s2 None) now2 w2 in
  Sorted string_le sorted
  ∧ sorted ≡ₚ slice_get (heap w1) s1
  ∧ sorted = sort_list (slice_get (heap w2) s2)
  ∧ endpoints (c r1.1)
    = omap (λ k, ec_Endpoint <$> cache (c r1.1) !! k) sorted
  ∧ endpoints (c r2.1)
    = omap (λ k, ec_Endpoint <$> cache (c r2.1) !! k) sorted
  ∧ (c w1 = c w2 → fstate w1 = fstate w2 →
     c r1.1 = c r2.1 ∧ endpoints (c r1.1) = endpoints (c r2.1)
     ∧ r1.2 = r2.2).
Proof.
  intros Hperm sorted r1 r2. subst sorted r1 r2.
  rewrite !Update_ok_c, !Update_ok_effects. cbn [endpoints cache].
  rewrite <- (sort_list_unique _ _ Hperm).
  split_and!; try done.
  - apply sort_list_sorted.
  - apply sort_list_perm.
  - apply populate_omap.
  - apply populate_omap.
  - by intros <- <-.
Qed.

(** C3: an error-free [Update] whose instances are pairwise distinct
    carries every entry that is cached and listed over unchanged: the
    entry under that instance is the same afterwards, its operation is in
    the new snapshot, and the factory is not called for it; the factory
    is only called for instances the cache did not hold. *)
Theorem C3_entry_carried_over s now w i sc :
  NoDup (slice_get (heap w) s) →
  i ∈ slice_get (heap w) s →
  cache (c w) !! i = Some sc →
  let r := Update (mkEvent s None) now w in
  cache (c r.1) !! i = Some sc
  ∧ ec_Endpoint sc ∈ endpoints (c r.1)
  ∧ (∀ res, EvFactory i res ∉ r.2)
  ∧ (∀ j res, EvFactory j res ∈ r.2 → cache (c w) !! j = None).
Proof.
  intros Hnd Hi Hsc r. subst r.
  rewrite Update_ok_c, Update_ok_effects. simpl.
  apply sort_list_NoDup in Hnd. apply sort_list_elem_of in Hi.
  set (l := sort_list (slice_get (heap w) s)) in *.
  pose proof (produce_carry (factory (c w)) l (cache (c w)) ∅ (fstate w)
                i sc Hnd Hi Hsc) as Hcarry.
  assert (∀ j res,
    EvFactory j res
      ∈ (produce (factory (c w)) l (cache (c w)) ∅ (fstate w)).2
        ++ closeLeftover
             (produce (factory (c w)) l (cache (c w)) ∅ (fstate w)).1.1.1
        ++ [EvInstall
              (populate l
                 (produce (factory (c w)) l (cache (c w)) ∅ (fstate w)).1.1.2)] →
    cache (c w) !! j = None) as Hfac.
  { intros j res. rewrite !elem_of_app.
    intros [H|[H|H]].
    - apply produce_factory in H as [_ H]. auto.
    - apply list_elem_of_omap in H as (kv & _ & H).
      destruct (ec_Closer kv.2); simplify_eq/=.
    - apply list_elem_of_singleton in H. done. }
  split_and!.
  - done.
  - by apply (populate_elem_of l _ i).
  - intros res H. apply Hfac in H. congruence.
  - done.
Qed.


(** *** Histories *)

Lemma run_app ks1 ks2 w :
  run (ks1 ++ ks2) w
  = let r1 := run ks1 w in
    let r2 := run ks2 r1.1.1 in
    (r2.1.1, r1.1.2 ++ r2.1.2, r1.2 ++ r2.2).
Proof.
  revert w. induction ks1 as [|k ks1 IH]; intros w; simpl.
  - by destruct (run ks2 w) as [[??]?].
  - destruct (perform k w) as [[w1 e1] r1]. rewrite IH. simpl.
    destruct (run ks1 w1) as [[w2 e2] r2]. simpl.
    destruct (run ks2 w2) as [[w3 e3] r3]. simpl.
    by rewrite !app_assoc.
Qed.

(** Reading a cache that records no error, any number of times. *)
Lemma run_reads_no_error ks w :
  err (c w) = None → Forall is_read ks →
  run ks w
  = (w, [], replicate (length ks) (endpoints (c w), None)).
Proof.
  intros He Hks. induction Hks as [|k ks Hk _ IH]; [done|].
  destruct k as [|now1 now2]; [done|]. simpl.
  by rewrite Endpoints_no_error, IH.
Qed.

(** C5: an error-free [Update] over pairwise distinct instances during
    which exactly one factory call fails leaves a snapshot with one
    endpoint fewer than there are instances, and the [Endpoints] calls
    that follow return that snapshot with a nil error. *)
Theorem C5_partial_failure s now w :
  NoDup (slice_get (heap w) s) →
  failures (Update (mkEvent s None) now w).2 = 1%nat →
  let N := length (slice_get (heap w) s) in
  let w' := (Update (mkEvent s None) now w).1 in
  (1 ≤ N)%nat
  ∧ length (endpoints (c w')) = (N - 1)%nat
  ∧ ∀ ks, Forall is_read ks →
      run ks w' = (w', [], replicate (length ks) (endpoints (c w'), None)).
Proof.
  intros Hnd Hfail N w'. subst N w'.
  assert (err (c (Update (mkEvent s None) now w).1) = None) as Herr
    by by rewrite Update_ok_c.
  rewrite Update_ok_effects in Hfail.
  rewrite Update_ok_c at 1. cbn [endpoints].
  apply sort_list_NoDup in Hnd.
  rewrite <- (sort_list_length (slice_get (heap w) s)).
  set (l := sort_list (slice_get (heap w) s)) in *.
  pose proof (produce_populate_length (factory (c w)) l (cache (c w)) ∅
                (fstate w) Hnd (λ i _, lookup_empty i)) as Hlen.
  simpl in Hlen.
  assert (failures
            (produce (factory (c w)) l (cache (c w)) ∅ (fstate w)).2 = 1%nat)
    as Hf1.
  { revert Hfail. unfold failures. rewrite !filter_app, !length_app.
    assert (∀ evs : list (@effect Endpoint Closer),
              Forall (λ ev, factory_failed ev = false) evs →
              length (filter (λ ev, factory_failed ev = true) evs) = 0%nat)
      as Hz.
    { intros evs H. induction H as [|ev evs Hev _ IH]; [done|].
      rewrite filter_cons_False; [done|]. by rewrite Hev. }
    rewrite (Hz (closeLeftover _)), (Hz [_]); [lia|by repeat constructor|].
    apply Forall_forall. intros ev (kv & _ & H)%list_elem_of_omap.
    destruct (ec_Closer kv.2); by simplify_eq/=. }
  split_and!; [lia|lia|].
  intros ks Hks. by apply run_reads_no_error.
Qed.

(** What an [Update] that carries an error does to the cache object. *)
Lemma Update_error s e now w :
  (Update (mkEvent s (Some e)) now w).1
  = if invalidateOnError (options (c w)) then
      match err (c w) with
      | Some _ => w
      | None =>
          with_c (set_deadline
                    (Time_Add now (invalidateTimeout (options (c w))))
                    (set_err (Some e) (c w))) w
      end
    else w.
Proof.
  unfold Update. simpl.
  destruct (invalidateOnError _); simpl; [|done]. by destruct (err (c w)).
Qed.

Lemma Update_error_effects s e now w :
  (Update (mkEvent s (Some e)) now w).2 = [EvLogErr e].
Proof.
  unfold Update. simpl.
  destruct (invalidateOnError _); simpl; [|done]. by destruct (err (c w)).
Qed.

(** C6: an [Update] whose event carries an error leaves the entry map
    and the snapshot as they were (and calls neither the factory nor a
    closer); it records the error and a deadline only if invalidation is
    enabled and no error is recorded yet, so that if an error is already
    recorded, the error and the deadline stay as they are. *)
Theorem C6_error_update_frame s e now w :
  let r := Update (mkEvent s (Some e)) now w in
  cache (c r.1) = cache (c w)
  ∧ endpoints (c r.1) = endpoints (c w)
  ∧ heap r.1 = heap w ∧ fstate r.1 = fstate w
  ∧ r.2 = [EvLogErr e]
  ∧ err (c r.1)
    = match err (c w) with
      | Some e0 => Some e0
      | None =>
          if invalidateOnError (options (c w)) then Some e else None
      end
  ∧ invalidateDeadline (c r.1)
    = match err (c w) with
      | Some _ => invalidateDeadline (c w)
      | None =>
          if invalidateOnError (options (c w))
          then Time_Add now (invalidateTimeout (options (c w)))
          else invalidateDeadline (c w)
      end
  ∧ (is_Some (err (c w)) →
     err (c r.1) = err (c w)
     ∧ invalidateDeadline (c r.1) = invalidateDeadline (c w)).
Proof.
  intros r. subst r. rewrite Update_error, Update_error_effects.
  destruct (invalidateOnError (options (c w))), (err (c w)) as [e0|] eqn:He;
    simpl; rewrite ?He; split_and!; try done; by intros [??].
Qed.


(** *** Accounting for closers *)

Lemma updateCache_closes s w i :
  let l := sort_list (slice_get (heap w) s) in
  let res := produce (factory (c w)) l (cache (c w)) ∅ (fstate w) in
  filter (λ ev, is_close i ev = true) (updateCache s w).2
  = entry_close res.1.1.1 i.
Proof.
  simpl. rewrite updateCache_unfold. simpl.
  rewrite !filter_app, closeLeftover_filter.
  pose proof (produce_closes (factory (c w))
                (sort_list (slice_get (heap w) s)) (cache (c w)) ∅
                (fstate w) i) as H0.
  unfold closes in H0. apply length_zero_iff_nil in H0. rewrite H0.
  rewrite filter_cons_False by done. simpl. by rewrite app_nil_r.
Qed.

Lemma holds_closer_None (m : gmap string (@endpointCloser Endpoint Closer)) i :
  m !! i = None → holds_closer m i = 0%nat.
Proof. intros H. unfold holds_closer, entry_close. by rewrite H. Qed.

Lemma updateCache_account s w i :
  let r := updateCache s w in
  (closes i r.2 + holds_closer (cache (c r.1)) i
   ≤ made i r.2 + holds_closer (cache (c w)) i)%nat.
Proof.
  simpl. unfold closes at 1. rewrite updateCache_closes.
  rewrite updateCache_unfold. simpl. rewrite made_app.
  pose proof (produce_holds (factory (c w))
                (sort_list (slice_get (heap w) s)) (cache (c w)) ∅
                (fstate w) i) as H.
  simpl in H. rewrite (holds_closer_None ∅) in H by apply lookup_empty.
  unfold holds_closer at 1 in H. lia.
Qed.

Lemma perform_account k w i :
  let r := perform k w in
  (closes i r.1.2 + holds_closer (cache (c r.1.1)) i
   ≤ made i r.1.2 + holds_closer (cache (c w)) i)%nat.
Proof.
  destruct k as [[s [e|]] now|now1 now2]; simpl.
  - pose proof (Update_error s e now w) as H1.
    pose proof (Update_error_effects s e now w) as H2.
    destruct (Update (mkEvent s (Some e)) now w) as [w' evs].
    simpl in *. subst.
    destruct (invalidateOnError _), (err (c w)); simpl; unfold closes; simpl; lia.
  - pose proof (updateCache_account s w i) as H. simpl in H.
    rewrite Update_ok. simpl. done.
  - unfold endpointCache_Endpoints, Endpoints_shared, Endpoints_exclusive.
    destruct (serving now1 (c w)); simpl; [unfold closes; simpl; lia|].
    destruct (serving now2 (c w)); simpl; [unfold closes; simpl; lia|].
    pose proof (updateCache_account None w i) as H. simpl in H.
    by destruct (updateCache None w).
Qed.

(** Over any history: the closes under a key, plus the closer the cache
    still holds under it, are covered by the closers the factory made
    for it, plus the one held at the start.  No closer is closed
    twice. *)
Lemma run_account ks w i :
  let r := run ks w in
  (closes i r.1.2 + holds_closer (cache (c r.1.1)) i
   ≤ made i r.1.2 + holds_closer (cache (c w)) i)%nat.
Proof.
  revert w. induction ks as [|k ks IH]; intros w; simpl.
  - unfold closes, made. simpl. lia.
  - pose proof (perform_account k w i) as Hk. simpl in Hk.
    destruct (perform k w) as [[w1 e1] r1]. simpl in Hk.
    specialize (IH w1). simpl in IH.
    destruct (run ks w1) as [[w2 e2] r2]. simpl in *.
    rewrite closes_app, made_app. lia.
Qed.

(** From a fresh cache on, whatever the calls: under every key there are
    at most as many closes as entries with a closer the factory made
    for it. *)
Lemma no_double_close ks f o h fs i :
  let r := run ks {| c := newEndpointCache f o; heap := h; fstate := fs |} in
  (closes i r.1.2 ≤ made i r.1.2)%nat.
Proof.
  simpl.
  pose proof (run_account ks
                {| c := newEndpointCache f o; heap := h; fstate := fs |} i)
    as H.
  simpl in H. rewrite (holds_closer_None ∅) in H by apply lookup_empty. lia.
Qed.

(** C4: when an entry with a closer is cached under an instance that
    the slice of an error-free [Update] does not list, the Update closes
    that closer exactly once; the close comes before the new snapshot
    and map are installed, which is the last thing the Update does; the
    entry is gone from the map afterwards; and in whatever calls follow,
    a close under that instance can only be of an entry the factory
    makes later, so the dropped entry is never closed again. *)
Theorem C4_disappeared_entry_closed_once s now w i sc cl :
  cache (c w) !! i = Some sc →
  ec_Closer sc = Some cl →
  i ∉ slice_get (heap w) s →
  let r := Update (mkEvent s None) now w in
  filter (λ ev, is_close i ev = true) r.2 = [EvClose i cl]
  ∧ (∃ before,
       r.2 = before ++ [EvInstall (endpoints (c r.1))]
       ∧ EvClose i cl ∈ before
       ∧ Forall (λ ev, is_install ev = false) before)
  ∧ cache (c r.1) !! i = None
  ∧ ∀ ks, (closes i (run ks r.1).1.2 ≤ made i (run ks r.1).1.2)%nat.
Proof.
  intros Hsc Hcl Hi r. subst r.
  assert (i ∉ sort_list (slice_get (heap w) s)) as Hi'
    by by rewrite sort_list_elem_of.
  pose proof (produce_old (factory (c w)) (sort_list (slice_get (heap w) s))
                (cache (c w)) ∅ (fstate w) i) as Hold.
  rewrite decide_False in Hold by done.
  pose proof (produce_new_other (factory (c w))
                (sort_list (slice_get (heap w) s))
                (cache (c w)) ∅ (fstate w) i Hi') as Hnew.
  rewrite lookup_empty in Hnew.
  assert (filter (λ ev, is_close i ev = true)
            (Update (mkEvent s None) now w).2 = [EvClose i cl]) as Hone.
  { rewrite Update_ok. cbn [fst snd]. rewrite updateCache_closes.
    unfold entry_close. by rewrite Hold, Hsc, Hcl. }
  assert (cache (c (Update (mkEvent s None) now w).1) !! i = None) as Hgone
    by by rewrite Update_ok_c.
  split_and!; [done| |done|].
  - rewrite Update_ok_effects, Update_ok_c. cbn [endpoints].
    eexists (_ ++ _). split; [by rewrite app_assoc|]. split.
    + apply elem_of_app. right. apply list_elem_of_omap.
      exists (i, sc). split; [|by simpl; rewrite Hcl].
      apply elem_of_map_to_list. by rewrite Hold.
    + apply Forall_app. split.
      * eapply Forall_impl; [apply produce_effects|]. by intros ? [? _].
      * apply closeLeftover_not_install.
  - intros ks.
    pose proof (run_account ks (Update (mkEvent s None) now w).1 i) as H.
    simpl in H. rewrite (holds_closer_None _ i Hgone) in H. lia.
Qed.


(** *** The error state *)

Lemma updateCache_nil w :
  updateCache None w
  = ({| c := {| options := options (c w); factory := factory (c w);
                cache := ∅; err := err (c w); endpoints := [];
                invalidateDeadline := invalidateDeadline (c w) |};
        heap := heap w; fstate := fstate w |},
     closeLeftover (cache (c w)) ++ [EvInstall []]).
Proof. done. Qed.

(** Past the deadline of a recorded error, [Endpoints] empties the cache:
    every entry is closed, the empty snapshot and map are installed, and
    the caller gets the recorded error. *)
Lemma Endpoints_expired now1 now2 w e :
  err (c w) = Some e →
  invalidateDeadline (c w) ≤ now1 → invalidateDeadline (c w) ≤ now2 →
  endpointCache_Endpoints now1 now2 w
  = (([], Some e),
     {| c := {| options := options (c w); factory := factory (c w);
                cache := ∅; err := Some e; endpoints := [];
                invalidateDeadline := invalidateDeadline (c w) |};
        heap := heap w; fstate := fstate w |},
     closeLeftover (cache (c w)) ++ [EvInstall []]).
Proof.
  intros He H1 H2.
  unfold endpointCache_Endpoints, Endpoints_shared, Endpoints_exclusive,
    serving, Time_Before.
  rewrite He. rewrite !(proj2 (Z.ltb_ge _ _)) by done.
  rewrite updateCache_nil. simpl. by rewrite He.
Qed.

(** Before the deadline it returns the snapshot and does nothing. *)
Lemma Endpoints_before now1 now2 w :
  now1 < invalidateDeadline (c w) →
  endpointCache_Endpoints now1 now2 w = ((endpoints (c w), None), w, []).
Proof.
  intros H1. unfold endpointCache_Endpoints, Endpoints_shared, serving,
    Time_Before.
  destruct (err (c w)); [|done]. by rewrite (proj2 (Z.ltb_lt _ _)).
Qed.

(** Errors that arrive while one is recorded, and reads before its
    deadline, change nothing. *)
Lemma run_keeps_error ks w :
  is_Some (err (c w)) →
  Forall (keeps_error (invalidateDeadline (c w))) ks →
  (run ks w).1.1 = w
  ∧ Forall (λ r, r = (endpoints (c w), None)) (run ks w).2
  ∧ Forall (λ ev, is_install ev = false ∧ ∀ i, is_close i ev = false)
           (run ks w).1.2.
Proof.
  intros [e0 He] Hks. induction Hks as [|k ks Hk _ IH]; [by simpl|].
  destruct k as [[s er] now|now1 now2]; simpl in Hk; cbn [run perform].
  - destruct Hk as [e ->].
    pose proof (Update_error s e now w) as H1.
    pose proof (Update_error_effects s e now w) as H2.
    destruct (Update (mkEvent s (Some e)) now w) as [w1 evs1].
    simpl in H1, H2. subst evs1.
    rewrite He in H1. destruct (invalidateOnError _); subst w1;
      destruct (run ks w) as [[w2 e2] r2]; simpl in *;
      destruct IH as (-> & ? & ?); split_and!; auto.
  - rewrite Endpoints_before by done.
    destruct (run ks w) as [[w2 e2] r2]; simpl in *.
    destruct IH as (-> & ? & ?); split_and!; auto.
Qed.

(** C1: invalidation timing.  Let invalidation be enabled with timeout
    [T], let no error be recorded, and let an [Update] carrying the error
    [e] read the clock at [t0].  Then (a) through any further Updates
    that carry errors, every [Endpoints] that reads the clock before
    [t0 + T] returns the snapshot of before the error with a nil error,
    and nothing is closed or installed; (b) after such calls, an
    [Endpoints] whose clock readings are at or after [t0 + T] closes
    every cached entry that has a closer, installs the empty snapshot
    and map, and returns no endpoints and the error [e], and so does
    every such call after it; (c) an error-free [Update], whenever it
    comes, clears the error, and the [Endpoints] calls after it return
    its snapshot with a nil error whatever the clock reads. *)
Theorem C1_invalidation_timing s e t0 w :
  invalidateOnError (options (c w)) = true →
  err (c w) = None →
  let T := invalidateTimeout (options (c w)) in
  let w0 := (Update (mkEvent s (Some e)) t0 w).1 in
  let gone :=
    {| c := {| options := options (c w); factory := factory (c w);
               cache := ∅; err := Some e; endpoints := [];
               invalidateDeadline := t0 + T |};
       heap := heap w; fstate := fstate w |} in
  (∀ ks, Forall (keeps_error (t0 + T)) ks →
     (run ks w0).1.1 = w0
     ∧ Forall (λ r, r = (endpoints (c w), None)) (run ks w0).2
     ∧ Forall (λ ev, is_install ev = false ∧ ∀ i, is_close i ev = false)
              (run ks w0).1.2)
  ∧ (∀ now1 now2, t0 + T ≤ now1 → t0 + T ≤ now2 →
       endpointCache_Endpoints now1 now2 w0
       = (([], Some e), gone, closeLeftover (cache (c w)) ++ [EvInstall []])
       ∧ ∀ i, filter (λ ev, is_close i ev = true)
                (closeLeftover (cache (c w)) ++ [EvInstall []])
              = entry_close (cache (c w)) i)
  ∧ (∀ now1 now2, t0 + T ≤ now1 → t0 + T ≤ now2 →
       endpointCache_Endpoints now1 now2 gone
       = (([], Some e), gone, [EvInstall []]))
  ∧ (∀ w1 s' now now1 now2,
       let w2 := (Update (mkEvent s' None) now w1).1 in
       err (c w2) = None
       ∧ endpointCache_Endpoints now1 now2 w2
         = ((endpoints (c w2), None), w2, [])).
Proof.
  intros Hinv Herr T w0 gone.
  assert (w0 = with_c (set_deadline (t0 + T) (set_err (Some e) (c w))) w)
    as Hw0.
  { subst w0. rewrite Update_error, Hinv, Herr. done. }
  clearbody w0. subst w0 gone.
  split_and!.
  - intros ks Hks.
    by apply (run_keeps_error ks
                (with_c (set_deadline (t0 + T) (set_err (Some e) (c w))) w)
                (mk_is_Some _ _ eq_refl)).
  - intros now1 now2 H1 H2. split.
    + by rewrite (Endpoints_expired now1 now2 _ e).
    + intros i. rewrite filter_app, closeLeftover_filter.
      rewrite filter_cons_False by done. apply app_nil_r.
  - intros now1 now2 H1 H2.
    rewrite (Endpoints_expired now1 now2 _ e) by done.
    simpl. by rewrite ?closeLeftover_empty.
  - intros w1 s' now now1 now2 w2. subst w2.
    assert (err (c (Update (mkEvent s' None) now w1).1) = None) as H
      by by rewrite Update_ok_c.
    split; [done|]. by apply Endpoints_no_error.
Qed.

End CacheFacts.

(** ** The balancers *)

Import lb.

Section BalancerFacts.

Context {Endpoint S R : Type} `{!sd.Endpointer Endpoint S} `{!Rand R}.

(** C7, as the code has it: when the endpointer's snapshot is empty,
    [Endpoint()] of either balancer returns no endpoint and an error,
    and does not panic; the error is the endpointer's own if it reported
    one, and [ErrNoEndpoints] if it reported none.  The round-robin
    counter is not advanced. *)
Theorem C7_empty_pool_error (b : @random S R) (rr : @roundRobin S) :
  (sd.Endpoints (random_s b)).1.1 = [] →
  (sd.Endpoints (rr_s rr)).1.1 = [] →
  (random_Endpoint b).1
  = Return (None,
            Some (default ErrNoEndpoints (sd.Endpoints (random_s b)).1.2))
  ∧ (roundRobin_Endpoint rr).1
    = Return (None,
              Some (default ErrNoEndpoints (sd.Endpoints (rr_s rr)).1.2))
  ∧ rr_c (roundRobin_Endpoint rr).2 = rr_c rr.
Proof.
  unfold random_Endpoint, roundRobin_Endpoint.
  destruct (sd.Endpoints (random_s b)) as [[eps1 [e1|]] s1];
    destruct (sd.Endpoints (rr_s rr)) as [[eps2 [e2|]] s2];
    simpl; intros -> ->; done.
Qed.

End BalancerFacts.

Section RoundRobinFacts.

Context {Endpoint : Type}.

Implicit Types (eps : list Endpoint).
Implicit Types (rr : @roundRobin (sd.FixedEndpointer Endpoint)).

Lemma uint64_mod_pos : 0 < uint64_mod.
Proof. done. Qed.

(** One call over a fixed, non-empty snapshot. *)
Lemma roundRobin_Endpoint_fixed rr :
  rr_s rr ≠ [] → 0 ≤ rr_c rr < uint64_mod →
  roundRobin_Endpoint rr
  = (index (rr_s rr) (rr_c rr mod Z.of_nat (length (rr_s rr))),
     {| rr_s := rr_s rr; rr_c := (rr_c rr + 1) mod uint64_mod |}).
Proof.
  intros Hne Hc. unfold roundRobin_Endpoint, sd.Endpoints,
    sd.FixedEndpointer_Endpoints, AddUint64.
  destruct (rr_s rr) as [|e eps] eqn:Hs; [done|].
  rewrite (proj2 (Z.leb_gt _ _)) by (simpl; lia).
  f_equal. f_equal. f_equal.
  rewrite Zminus_mod_idemp_l.
  replace (rr_c rr + 1 - 1) with (rr_c rr) by lia.
  by apply Z.mod_small.
Qed.

Lemma index_lookup eps idx e :
  0 ≤ idx → eps !! Z.to_nat idx = Some e →
  index eps idx = Return (Some e, None).
Proof.
  intros H0 He. unfold index. rewrite (proj2 (Z.ltb_ge _ _)) by done.
  by rewrite He.
Qed.


(** [n] calls in a row: the counter runs through consecutive values
    modulo [2^64], and call number [k] selects by its value. *)
Lemma calls_fixed n rr :
  rr_s rr ≠ [] → 0 ≤ rr_c rr < uint64_mod →
  calls n rr
  = ((λ k : nat, index (rr_s rr)
                   (((rr_c rr + Z.of_nat k) mod uint64_mod)
                      mod Z.of_nat (length (rr_s rr)))) <$> seq 0 n,
     {| rr_s := rr_s rr; rr_c := (rr_c rr + Z.of_nat n) mod uint64_mod |}).
Proof.
  revert rr. induction n as [|n IH]; intros rr Hne Hc.
  - simpl. rewrite Z.add_0_r, Z.mod_small by done. by destruct rr.
  - cbn [calls]. unfold Balancer_Endpoint, roundRobin_Balancer.
    rewrite roundRobin_Endpoint_fixed by done.
    rewrite IH; cbn [rr_s rr_c]; [|done|by apply Z.mod_pos_bound].
    f_equal.
    + cbn [seq fmap list_fmap]. f_equal.
      * replace (rr_c rr + Z.of_nat 0) with (rr_c rr) by lia.
        by rewrite (Z.mod_small (rr_c rr) uint64_mod) by done.
      * rewrite <- fmap_S_seq, <- list_fmap_compose.
        apply list_fmap_ext. intros ? k ?. simpl.
        rewrite Zplus_mod_idemp_l. do 3 f_equal. lia.
    + f_equal. rewrite Zplus_mod_idemp_l. f_equal. lia.
Qed.

Lemma calls_fixed_state n rr :
  rr_s rr ≠ [] → 0 ≤ rr_c rr < uint64_mod →
  (calls n rr).2
  = {| rr_s := rr_s rr; rr_c := (rr_c rr + Z.of_nat n) mod uint64_mod |}.
Proof. intros Hne Hc. by rewrite calls_fixed. Qed.

Lemma rotate_perm (n : nat) eps : rotate n eps ≡ₚ eps.
Proof.
  unfold rotate. rewrite Permutation_app_comm. by rewrite take_drop.
Qed.

(** A window of [length eps] calls that does not run over the end of
    the counter's range is the snapshot, rotated. *)
Lemma calls_window rr :
  rr_s rr ≠ [] → 0 ≤ rr_c rr →
  rr_c rr + Z.of_nat (length (rr_s rr)) ≤ uint64_mod →
  (calls (length (rr_s rr)) rr).1
  = (λ e, Return (Some e, None))
      <$> rotate (Z.to_nat (rr_c rr mod Z.of_nat (length (rr_s rr))))
            (rr_s rr).
Proof.
  intros Hne H0 Hw.
  assert (0 < Z.of_nat (length (rr_s rr))) as HN
    by (destruct (rr_s rr); simpl; [done|lia]).
  rewrite calls_fixed by (done || lia). cbn [fst].
  apply list_eq. intros k. rewrite !list_lookup_fmap.
  destruct (decide (k < length (rr_s rr))%nat) as [Hk|Hk].
  - rewrite lookup_seq_lt by done. rewrite lookup_rotate_r by done.
    simpl. rewrite (Z.mod_small (rr_c rr + Z.of_nat k)) by lia.
    unfold rotate_nat_add. rewrite Z2Nat.id by (by apply Z.mod_pos_bound).
    rewrite Zplus_mod_idemp_l.
    pose proof (Z.mod_pos_bound (rr_c rr + Z.of_nat k) _ HN) as Hb.
    assert (is_Some (rr_s rr !! Z.to_nat ((rr_c rr + Z.of_nat k)
                                          mod Z.of_nat (length (rr_s rr)))))
      as [e He] by (apply lookup_lt_is_Some; lia).
    rewrite (index_lookup _ _ e) by (done || lia).
    by rewrite He.
  - rewrite lookup_seq_ge by lia.
    rewrite (proj2 (lookup_ge_None _ _)); [done|].
    rewrite length_rotate. lia.
Qed.

(** C8, as the code has it.  Over a fixed non-empty snapshot of length
    [N], an [Endpoint()] call selects [snapshot[counter mod N]] and
    moves the counter to [(counter + 1) mod 2^64]; the first call after
    construction selects index 0; and [N] calls in a row during which
    the counter does not pass [2^64 - 1] select the snapshot rotated by
    [counter mod N], hence every endpoint once. *)
Theorem C8_round_robin_rotation rr :
  rr_s rr ≠ [] → 0 ≤ rr_c rr < uint64_mod →
  let N := Z.of_nat (length (rr_s rr)) in
  (∃ e, rr_s rr !! Z.to_nat (rr_c rr mod N) = Some e
        ∧ roundRobin_Endpoint rr
          = (Return (Some e, None),
             {| rr_s := rr_s rr; rr_c := (rr_c rr + 1) mod uint64_mod |}))
  ∧ (roundRobin_Endpoint (NewRoundRobin (rr_s rr))).1
    = Return (head (rr_s rr), None)
  ∧ (rr_c rr + N ≤ uint64_mod →
     (calls (length (rr_s rr)) rr).1
     = (λ e, Return (Some e, None))
         <$> rotate (Z.to_nat (rr_c rr mod N)) (rr_s rr)
     ∧ rotate (Z.to_nat (rr_c rr mod N)) (rr_s rr) ≡ₚ rr_s rr).
Proof.
  intros Hne Hc N. subst N.
  assert (0 < Z.of_nat (length (rr_s rr))) as HN
    by (destruct (rr_s rr); simpl; [done|lia]).
  split_and!.
  - pose proof (Z.mod_pos_bound (rr_c rr) _ HN) as Hb.
    assert (is_Some (rr_s rr !! Z.to_nat (rr_c rr
                                          mod Z.of_nat (length (rr_s rr)))))
      as [e He] by (apply lookup_lt_is_Some; lia).
    exists e. split; [done|]. rewrite roundRobin_Endpoint_fixed by done.
    f_equal. apply index_lookup; [lia|done].
  - rewrite roundRobin_Endpoint_fixed by done.
    cbn [fst NewRoundRobin rr_s rr_c].
    rewrite Zmod_0_l. by destruct (rr_s rr).
  - intros Hw. split; [apply calls_window; (done || lia)|apply rotate_perm].
Qed.

End RoundRobinFacts.

(** ** The retry executor *)

Section RetryFacts.

Context {Endpoint Response B Env : Type} `{!Balancer Endpoint B}.

Implicit Types (invoke : Endpoint → Env → @reply Response * Env).
Implicit Types (p : policy) (b : B) (env : Env) (attempts : list error).

Lemma retry_loop_S fuel invoke p deadline i now attempts b env :
  retry_loop (S fuel) invoke p deadline i now attempts b env
  = retry_pass (retry_loop fuel invoke p deadline) invoke p deadline
      i now attempts b env.
Proof. done. Qed.

Lemma retry_loop_expired fuel invoke p deadline i now attempts b env :
  deadline ≤ now →
  retry_loop (S fuel) invoke p deadline i now attempts b env
  = Some (Return (None, Some DeadlineExceeded)).
Proof.
  intros H. rewrite retry_loop_S. unfold retry_pass.
  by rewrite (proj2 (Z.leb_le _ _)).
Qed.

(** More fuel does not change a result. *)
Lemma retry_loop_mono fuel invoke p deadline i now attempts b env r :
  retry_loop fuel invoke p deadline i now attempts b env = Some r →
  retry_loop (S fuel) invoke p deadline i now attempts b env = Some r.
Proof.
  revert i now attempts b env.
  induction fuel as [|fuel IH]; intros i now attempts b env; [done|].
  rewrite (retry_loop_S (S fuel)), (retry_loop_S fuel). unfold retry_pass.
  destruct (deadline <=? now); [done|].
  destruct (Balancer_Endpoint b) as [[[[ep|] [e|]]|] b']; try done.
  - destruct (on_failure p i e) as [[] final]; [|done]. apply IH.
  - destruct (invoke ep env) as [[after [resp|e]|] env']; try done.
    destruct (deadline <=? now + after); [done|].
    destruct (on_failure p i e) as [[] final]; [|done]. apply IH.
  - destruct (on_failure p i e) as [[] final]; [|done]. apply IH.
Qed.

Lemma retry_loop_mono_le fuel fuel' invoke p deadline i now attempts b env r :
  (fuel ≤ fuel')%nat →
  retry_loop fuel invoke p deadline i now attempts b env = Some r →
  retry_loop fuel' invoke p deadline i now attempts b env = Some r.
Proof.
  induction 1 as [|fuel' _ IH]; [done|].
  intros H. by apply retry_loop_mono, IH.
Qed.

(** C9 (on the loop as the design document describes it): when the
    shared deadline expires before any attempt succeeds, the retrying
    operation returns, and what it returns is the deadline's own error,
    not a [RetryError] around it, whatever errors the attempts before
    had. *)
Theorem C9_deadline_error_as_is invoke p deadline i now attempts b env :
  expires invoke p deadline i now b env →
  ∃ n, ∀ fuel, (n ≤ fuel)%nat →
    retry_loop fuel invoke p deadline i now attempts b env
    = Some (Return (None, Some DeadlineExceeded)).
Proof.
  intros Hex. revert attempts.
  induction Hex as
    [ i now b env Hd
    | i now b env ep b' r env' Hd Hb Hi Hr
    | i now b env o e b' Hd Hb Hc _ IH
    | i now b env ep b' after e env' Hd Hb Hi Ha Hc _ IH ];
    intros attempts.
  - exists 1%nat. intros fuel Hf.
    apply (retry_loop_mono_le 1); [done|]. by apply retry_loop_expired.
  - exists 1%nat. intros fuel Hf.
    apply (retry_loop_mono_le 1); [done|].
    rewrite retry_loop_S. unfold retry_pass.
    rewrite (proj2 (Z.leb_gt _ _)) by done. rewrite Hb, Hi.
    destruct r as [after res|]; [|done]. simpl in Hr.
    by rewrite (proj2 (Z.leb_le _ _)).
  - destruct (IH (attempts ++ [e])) as [n Hn]. exists (S n).
    intros fuel Hf. destruct fuel as [|fuel]; [lia|].
    rewrite retry_loop_S. unfold retry_pass.
    rewrite (proj2 (Z.leb_gt _ _)) by done. rewrite Hb.
    destruct (on_failure p i e) as [cont final]. simpl in Hc. subst cont.
    destruct o; apply Hn; lia.
  - destruct (IH (attempts ++ [e])) as [n Hn]. exists (S n).
    intros fuel Hf. destruct fuel as [|fuel]; [lia|].
    rewrite retry_loop_S. unfold retry_pass.
    rewrite (proj2 (Z.leb_gt _ _)) by done.
    rewrite Hb, Hi. rewrite (proj2 (Z.leb_gt _ _)) by done.
    destruct (on_failure p i e) as [cont final]. simpl in Hc. subst cont.
    apply Hn. lia.
Qed.

(** The fixed-count loop stops of itself: after at most
    [maxAttempts - attemptIndex + 1] attempts it has returned. *)
Lemma retry_loop_fixed_returns fuel invoke maxAttempts deadline i now
    attempts b env :
  i ≤ maxAttempts → (Z.to_nat (maxAttempts - i) < fuel)%nat →
  is_Some (retry_loop fuel invoke (FixedCount maxAttempts) deadline i now
             attempts b env).
Proof.
  revert i now attempts b env.
  induction fuel as [|fuel IH]; intros i now attempts b env Hi Hf; [lia|].
  rewrite retry_loop_S. unfold retry_pass.
  destruct (deadline <=? now); [done|].
  destruct (Balancer_Endpoint b) as [[[[ep|] [e|]]|] b']; try done.
  - simpl. destruct (i =? maxAttempts) eqn:E; simpl; [done|].
    apply Z.eqb_neq in E. apply IH; lia.
  - destruct (invoke ep env) as [[after [resp|e]|] env']; try done.
    + by destruct (deadline <=? now + after).
    + destruct (deadline <=? now + after); [done|].
      simpl. destruct (i =? maxAttempts) eqn:E; simpl; [done|].
      apply Z.eqb_neq in E. apply IH; lia.
  - simpl. destruct (i =? maxAttempts) eqn:E; simpl; [done|].
    apply Z.eqb_neq in E. apply IH; lia.
Qed.

End RetryFacts.

(** * The theorems at sample values *)

Import Samples.

Example warm_snapshot :
  endpoints (c warm) = [0; 1; 2]%nat
  ∧ heap warm !! 1%positive = Some ["a"; "b"; "c"]%string.
Proof. by vm_compute. Qed.

Lemma C10_witness :
  heap (Update (mkEvent (Some 1%positive) None) 0 fresh).1 !! 1%positive
  = Some ["a"; "b"; "c"]%string.
Proof.
  pose proof (C10_update_sorts_callers_slice 1%positive
                ["b"; "a"; "c"]%string 0 fresh eq_refl) as H.
  apply H.
Defined.

Lemma C2_witness :
  endpoints (c (Update (mkEvent (Some 1%positive) None) 0 fresh).1)
  = endpoints (c (Update (mkEvent (Some 3%positive) None) 7 fresh).1).
Proof.
  assert (slice_get (heap fresh) (Some 1%positive)
          ≡ₚ slice_get (heap fresh) (Some 3%positive)) as Hperm.
  { vm_compute. apply (Permutation_cons_app ["c"; "a"] [])%string.
    apply perm_swap. }
  destruct (C2_snapshot_order_deterministic (Some 1%positive)
              (Some 3%positive) 0 7 fresh fresh Hperm)
    as (_ & _ & _ & _ & _ & H).
  by destruct (H eq_refl eq_refl) as (_ & H2 & _).
Defined.

(** The instances of C3 have to be distinct: when the slice repeats an
    instance, its second occurrence finds the entry already moved out of
    the old map, and the factory is called for it although the cache
    held it. *)
Example repeated_instance_calls_factory :
  cache (c warm) !! "a"%string = Some (mkEC 0%nat (Some 0%nat))
  ∧ (Update (mkEvent (Some 4%positive) None) 9 warm).2
    = [EvFactory "a" (mkResult 3%nat (Some 3%nat) None);
       EvClose "c" 2%nat; EvClose "b" 1%nat; EvInstall [3%nat; 3%nat]]
  ∧ cache (c (Update (mkEvent (Some 4%positive) None) 9 warm).1) !! "a"%string
    = Some (mkEC 3%nat (Some 3%nat)).
Proof. by vm_compute. Qed.

Lemma C3_witness :
  cache (c (Update (mkEvent (Some 3%positive) None) 9 warm).1) !! "a"%string
  = Some (mkEC 0%nat (Some 0%nat))
  ∧ 0%nat ∈ endpoints (c (Update (mkEvent (Some 3%positive) None) 9 warm).1).
Proof.
  assert (NoDup (slice_get (heap warm) (Some 3%positive))) as Hnd
    by (apply (bool_decide_unpack _); by vm_compute).
  assert ("a"%string ∈ slice_get (heap warm) (Some 3%positive)) as Hin
    by (apply (bool_decide_unpack _); by vm_compute).
  pose proof (C3_entry_carried_over (Some 3%positive) 9 warm "a"%string
                (mkEC 0%nat (Some 0%nat)) Hnd Hin eq_refl) as (H1 & H2 & _).
  by split.
Defined.

Lemma C4_witness :
  filter (λ ev, is_close "b" ev = true)
    (Update (mkEvent (Some 2%positive) None) 9 warm).2
  = [EvClose "b"%string 1%nat].
Proof.
  assert ("b"%string ∉ slice_get (heap warm) (Some 2%positive)) as Hout
    by (apply (bool_decide_unpack _); by vm_compute).
  exact (proj1 (C4_disappeared_entry_closed_once (Some 2%positive) 9 warm
                  "b"%string (mkEC 1%nat (Some 1%nat)) 1%nat
                  eq_refl eq_refl Hout)).
Defined.

Lemma C5_witness :
  length (endpoints (c (Update (mkEvent (Some 2%positive) None) 0 fresh).1))
  = 2%nat.
Proof.
  assert (NoDup (slice_get (heap fresh) (Some 2%positive))) as Hnd
    by (apply (bool_decide_unpack _); by vm_compute).
  exact (proj1 (proj2 (C5_partial_failure (Some 2%positive) 0 fresh
                         Hnd eq_refl))).
Defined.

Lemma C1_witness :
  Forall (λ r, r = ([0; 1; 2]%nat, None))
    (run [CallEndpoints 101 101;
          CallUpdate (mkEvent None (Some (errors_New "still lost"))) 105;
          CallEndpoints 109 109] failing).2
  ∧ (endpointCache_Endpoints 110 110 failing).1.1
    = ([], Some (errors_New "connection lost")).
Proof.
  pose proof (C1_invalidation_timing None (errors_New "connection lost")
                100 warm eq_refl eq_refl) as (Ha & Hb & _).
  split.
  - apply (Ha [CallEndpoints 101 101;
               CallUpdate (mkEvent None (Some (errors_New "still lost"))) 105;
               CallEndpoints 109 109]).
    repeat constructor; by eexists.
  - destruct (Hb 110 110) as [H _]; [done|done|].
    exact (f_equal (λ x, x.1.1) H).
Defined.

Lemma C7_witness :
  (random_Endpoint (NewRandom ([] : list nat) (0 : Z))).1
  = Return (None, Some ErrNoEndpoints)
  ∧ (roundRobin_Endpoint (NewRoundRobin ([] : list nat))).1
    = Return (None, Some ErrNoEndpoints).
Proof.
  pose proof (C7_empty_pool_error (NewRandom ([] : list nat) (0 : Z))
                (NewRoundRobin ([] : list nat)) eq_refl eq_refl)
    as (H1 & H2 & _).
  by split.
Defined.

Lemma C8_witness :
  (calls 3 {| rr_s := [10; 20; 30]%nat; rr_c := 4 |}).1
  = [Return (Some 20%nat, None); Return (Some 30%nat, None);
     Return (Some 10%nat, None)].
Proof.
  assert ([10; 20; 30]%nat ≠ []) as Hne by done.
  assert (0 ≤ 4 < uint64_mod) as Hc by done.
  destruct (C8_round_robin_rotation {| rr_s := [10; 20; 30]%nat; rr_c := 4 |}
              Hne Hc) as (_ & _ & H).
  destruct H as [H _]; [done|]. exact H.
Defined.

Lemma C9_witness :
  ∃ n, ∀ fuel, (n ≤ fuel)%nat →
    Retry reply_after 999 1 (NewRoundRobin [10%nat]) fuel None tt
    = Some (Return (None, Some DeadlineExceeded)).
Proof.
  apply (C9_deadline_error_as_is reply_after (FixedCount 999) 1 1 0 []
           (NewRoundRobin [10%nat]) tt).
  by eapply (expires_in_attempt _ _ _ _ _ _ _ 10%nat).
Defined.

(** C7 does not hold as the design document words it.  A cache that
    has invalidated itself has an empty snapshot, and both balancers
    return the discovery error it reports, not [ErrNoEndpoints]. *)
Lemma C7_counterexample :
  (@sd.Endpoints nat _ (DefaultEndpointer_Endpoints 110 110) failing).1
  = ([], Some (errors_New "connection lost"))
  ∧ (@roundRobin_Endpoint nat _ (DefaultEndpointer_Endpoints 110 110)
       (NewRoundRobin failing)).1
    = Return (None, Some (errors_New "connection lost"))
  ∧ (@random_Endpoint nat _ Z (DefaultEndpointer_Endpoints 110 110)
       counter_Rand (NewRandom failing 0)).1
    = Return (None, Some (errors_New "connection lost"))
  ∧ errors_New "connection lost" ≠ ErrNoEndpoints.
Proof. split_and!; by vm_compute. Qed.

(** C8 does not hold as the design document words it where the counter
    wraps.  After [2^64 - 1] calls on a fresh balancer over three
    endpoints the counter is at its largest value, and the next three
    calls select the first endpoint twice and the third not at all. *)
Lemma C8_counterexample :
  (calls 3 (calls (Z.to_nat (2 ^ 64 - 1))
              (NewRoundRobin [10; 20; 30]%nat)).2).1
  = [Return (Some 10%nat, None); Return (Some 10%nat, None);
     Return (Some 20%nat, None)].
Proof.
  rewrite calls_fixed_state by done.
  cbn [NewRoundRobin rr_s rr_c].
  rewrite Z2Nat.id by done.
  by vm_compute.
Qed.

(** The loop on the cases of the package's retry tests: too few
    attempts for three operations of which the third succeeds, just
    enough attempts, a callback that aborts with its own error, and a
    nil callback. *)
Example test_RetryMaxPartialFail :
  Retry three_ops 2 1000 (NewRoundRobin [1; 2; 3]%nat) 10 None tt
  = Some (Return (None,
            Some (RetryError [errors_New "error one"; errors_New "error two"]
                    (errors_New "error two")))).
Proof. by vm_compute. Qed.

Example test_RetryMaxSuccess :
  Retry three_ops 3 1000 (NewRoundRobin [1; 2; 3]%nat) 10 None tt
  = Some (Return (Some "ok"%string, None)).
Proof. by vm_compute. Qed.

Example test_AbortEarlyCustomMessage :
  RetryWithCallback three_ops 1000 (NewRoundRobin ([] : list nat))
    (Some (λ _ _, (false, Some (errors_New "aborting early")))) 10 None tt
  = Some (Return (None,
            Some (RetryError [ErrNoEndpoints] (errors_New "aborting early")))).
Proof. by vm_compute. Qed.

Example test_HandleNilCallback :
  RetryWithCallback three_ops 1000 (NewRoundRobin [3%nat]) None 10 None tt
  = Some (Return (Some "ok"%string, None)).
Proof. by vm_compute. Qed.

(** Two attempts fail within the budget of five time units, and the
    third is cut short by the deadline: the result is the deadline's
    error, not a [RetryError] with the two failures. *)
Example deadline_after_two_failures :
  Retry fail_after 999 5 (NewRoundRobin [2; 2; 2]%nat) 10 None tt
  = Some (Return (None, Some DeadlineExceeded)).
Proof. by vm_compute. Qed.

(** * Further properties of the endpoint cache *)

Section CacheMore.

Context {Endpoint Closer FState : Type}.

Implicit Types (f : @Factory Endpoint Closer FState).
Implicit Types (old new : gmap string (@endpointCloser Endpoint Closer)).
Implicit Types (fs : FState) (l : list string) (i j : string).
Implicit Types (evs : list (@effect Endpoint Closer)).
Implicit Types (w : @World Endpoint Closer FState).

(** What no call changes. *)
Lemma perform_options k w :
  options (c (perform k w).1.1) = options (c w)
  ∧ factory (c (perform k w).1.1) = factory (c w).
Proof.
  destruct k as [[s [e|]] now|now1 now2]; cbn [perform].
  - pose proof (Update_error s e now w) as H.
    destruct (Update (mkEvent s (Some e)) now w) as [w1 evs1]. simpl in *.
    subst. by destruct (invalidateOnError _), (err (c w)).
  - pose proof (Update_ok_c s now w) as H.
    destruct (Update (mkEvent s None) now w) as [w1 evs1]. simpl in *.
    by rewrite H.
  - unfold endpointCache_Endpoints, Endpoints_shared, Endpoints_exclusive.
    destruct (serving now1 (c w)); [done|].
    destruct (serving now2 (c w)); [done|]. by rewrite updateCache_nil.
Qed.

(** With invalidation off and no error recorded, an [Endpoints] call is
    a no-op that returns the snapshot, and no call records an error. *)
Lemma perform_no_invalidation k w :
  invalidateOnError (options (c w)) = false → err (c w) = None →
  err (c (perform k w).1.1) = None
  ∧ (is_update k = false →
     perform k w = (w, [], [(endpoints (c w), None)])).
Proof.
  intros Hoff Herr.
  destruct k as [[s [e|]] now|now1 now2]; cbn [perform is_update].
  - pose proof (Update_error s e now w) as H.
    destruct (Update (mkEvent s (Some e)) now w) as [w1 evs1]. simpl in *.
    subst. rewrite Hoff. by split.
  - pose proof (Update_ok_c s now w) as H.
    destruct (Update (mkEvent s None) now w) as [w1 evs1]. simpl in *.
    rewrite H. by split.
  - rewrite Endpoints_no_error by done. by split.
Qed.

(** X1. Without the [InvalidateOnError] option the endpointer keeps
    returning the last known endpoints: whatever events arrive and whenever
    [Endpoints] is called, no [Endpoints] call returns an error, and the
    [Endpoints] calls change nothing, so that the world and the calls made
    on the collaborators are those of the Updates alone. *)
Theorem no_option_no_invalidation f h fs ks :
  let w0 := NewEndpointer f [] h fs in
  Forall (λ r, r.2 = None) (run ks w0).2
  ∧ err (c (run ks w0).1.1) = None
  ∧ (run ks w0).1 = (run (filter (λ k, is_update k = true) ks) w0).1.
Proof.
  intros w0.
  assert (invalidateOnError (options (c w0)) = false) as Hoff by done.
  assert (err (c w0) = None) as Herr by done.
  clearbody w0. revert w0 Hoff Herr.
  induction ks as [|k ks IH]; intros w Hoff Herr; [by simpl|].
  destruct (perform_no_invalidation k w Hoff Herr) as [Herr1 Hread].
  destruct (perform_options k w) as [Hopt _].
  destruct (is_update k) eqn:Hk.
  - rewrite filter_cons_True by done. cbn [run].
    destruct (perform k w) as [[w1 e1] r1] eqn:Hp. simpl in *.
    destruct (IH w1) as (H1 & H2 & H3); [congruence|done|].
    destruct (run ks w1) as [[w2 e2] r2].
    destruct (run (filter _ ks) w1) as [[w3 e3] r3]. simpl in *.
    split_and!; [|done|congruence].
    apply Forall_app. split; [|done].
    destruct k as [ev now|]; [|done]. simpl in Hp.
    destruct (Update ev now w). by simplify_eq.
  - rewrite filter_cons_False by (by rewrite Hk). cbn [run].
    rewrite Hread by done.
    destruct (IH w Hoff Herr) as (H1 & H2 & H3).
    destruct (run ks w) as [[w2 e2] r2]. simpl in *.
    split_and!; [|done|done]. by constructor.
Qed.


(** *** The calls of one Update *)

Lemma filter_agree {A} (P Q : A → Prop) `{∀ x, Decision (P x)}
    `{∀ x, Decision (Q x)} (xs : list A) :
  (∀ x, x ∈ xs → P x ↔ Q x) → filter P xs = filter Q xs.
Proof.
  induction xs as [|x xs IH]; intros HPQ; [done|].
  rewrite !filter_cons. rewrite IH by (intros; apply HPQ; by right).
  destruct (decide (P x)), (decide (Q x)); try done;
    exfalso; naive_solver (eauto using list_elem_of_here).
Qed.

Lemma produce_factory_calls f l old new fs :
  NoDup l →
  factory_calls (produce f l old new fs).2
  = filter (λ i, old !! i = None) l.
Proof.
  revert l old new fs.
  apply (produce_rect f (λ l old new fs res,
           NoDup l →
           factory_calls res.2 = filter (λ i, old !! i = None) l));
    cbn [fst snd].
  - done.
  - intros a l old new fs sc o n s evs Ha _ IH [Hal Hnd]%NoDup_cons.
    rewrite filter_cons_False by (rewrite Ha; done).
    rewrite IH by done. apply filter_agree. intros i Hi.
    rewrite lookup_delete_ne; [done|]. by intros ->.
  - intros a l old new fs r fs1 e o n s evs Ha _ _ _ IH [Hal Hnd]%NoDup_cons.
    rewrite filter_cons_True by done. cbn. by rewrite <- IH.
  - intros a l old new fs r fs1 o n s evs Ha _ _ _ IH [Hal Hnd]%NoDup_cons.
    rewrite filter_cons_True by done. cbn. by rewrite <- IH.
Qed.

Lemma factory_calls_app evs1 evs2 :
  factory_calls (evs1 ++ evs2) = factory_calls evs1 ++ factory_calls evs2.
Proof. apply omap_app. Qed.

Lemma closeLeftover_factory_calls
    (m : gmap string (@endpointCloser Endpoint Closer)) :
  factory_calls (closeLeftover m) = [].
Proof.
  unfold closeLeftover, factory_calls.
  induction (map_to_list m) as [|[k sc] kvs IH]; [done|].
  simpl. destruct (ec_Closer sc); simpl; exact IH.
Qed.

Lemma close_calls_app evs1 evs2 :
  close_calls (evs1 ++ evs2) = close_calls evs1 ++ close_calls evs2.
Proof. apply omap_app. Qed.

Lemma produce_close_calls f l old new fs :
  close_calls (produce f l old new fs).2 = [].
Proof.
  revert l old new fs.
  apply (produce_rect f (λ l old new fs res, close_calls res.2 = []));
    cbn [fst snd]; auto.
Qed.

(** The factory calls of an update without error. *)
Lemma Update_factory_calls s now w :
  NoDup (slice_get (heap w) s) →
  factory_calls (Update (mkEvent s None) now w).2
  = filter (λ i, cache (c w) !! i = None)
      (sort_list (slice_get (heap w) s)).
Proof.
  intros Hnd. apply sort_list_NoDup in Hnd.
  rewrite Update_ok_effects. cbn zeta.
  rewrite !factory_calls_app, closeLeftover_factory_calls.
  rewrite produce_factory_calls by done. cbn. by rewrite app_nil_r.
Qed.

(** X2. The factory is called once for each listed instance the cache does
    not hold, in lexicographic order, and for nothing else: an instance on
    which the factory failed is tried again by the next Update that lists
    it. *)
Theorem factory_called_for_the_uncached s now w :
  NoDup (slice_get (heap w) s) →
  factory_calls (Update (mkEvent s None) now w).2
  = filter (λ i, cache (c w) !! i = None)
      (sort_list (slice_get (heap w) s)).
Proof. apply Update_factory_calls. Qed.

(** The keys of the new map: what was listed and either held before or
    made without error now. *)
Lemma produce_keys f l old new fs i :
  is_Some ((produce f l old new fs).1.1.2 !! i)
  ↔ is_Some (new !! i)
    ∨ (i ∈ l ∧ (is_Some (old !! i)
                ∨ ∃ r, EvFactory i r ∈ (produce f l old new fs).2
                       ∧ ferr r = None)).
Proof.
  revert l old new fs.
  apply (produce_rect f (λ l old new fs res,
    is_Some (res.1.1.2 !! i)
    ↔ is_Some (new !! i)
      ∨ (i ∈ l ∧ (is_Some (old !! i)
                  ∨ ∃ r, EvFactory i r ∈ res.2 ∧ ferr r = None))));
    cbn [fst snd].
  - intros. rewrite elem_of_nil. tauto.
  - intros a l old new fs sc o n s evs Ha _ IH. rewrite IH.
    rewrite elem_of_cons.
    destruct (decide (i = a)) as [->|Hne].
    + rewrite lookup_insert_eq, Ha.
      assert (is_Some (Some sc)) by by eexists. tauto.
    + rewrite lookup_insert_ne, lookup_delete_ne by done. tauto.
  - intros a l old new fs r fs1 e o n s evs Ha _ He Hp IH. rewrite IH.
    rewrite elem_of_cons.
    assert ((∃ r', EvFactory i r' ∈ EvFactory a r :: EvLogInstance a e :: evs
                   ∧ ferr r' = None)
            ↔ ∃ r', EvFactory i r' ∈ evs ∧ ferr r' = None) as ->.
    { split; intros (r' & Hr & He'); exists r'; (split; [|done]).
      - rewrite !elem_of_cons in Hr.
        destruct Hr as [Hr|[Hr|Hr]]; [|done..]. simplify_eq.
      - by do 2 right. }
    destruct (decide (i = a)) as [->|Hne]; [|tauto].
    rewrite Ha. assert (¬ is_Some (@None (@endpointCloser Endpoint Closer)))
      by (by intros [??]).
    split; [tauto|]. intros [?|[_ [?|?]]]; [tauto|done|].
    destruct (decide (a ∈ l)); [tauto|].
    destruct H0 as (r' & Hr & _).
    pose proof (produce_factory f l old new fs1 a r') as Hin.
    rewrite Hp in Hin. by destruct (Hin Hr).
  - intros a l old new fs r fs1 o n s evs Ha _ He _ IH. rewrite IH.
    rewrite elem_of_cons.
    assert ((∃ r', EvFactory i r' ∈ EvFactory a r :: evs ∧ ferr r' = None)
            ↔ i = a ∨ ∃ r', EvFactory i r' ∈ evs ∧ ferr r' = None) as ->.
    { split.
      - intros (r' & Hr & He'). rewrite elem_of_cons in Hr.
        destruct Hr as [Hr|Hr]; [left; by simplify_eq|right; eauto].
      - intros [->|(r' & Hr & He')]; [exists r|exists r'];
          (split; [|done]); [by left|by right]. }
    destruct (decide (i = a)) as [->|Hne].
    + rewrite lookup_insert_eq.
      assert (is_Some (Some (mkEC (service r) (closer r)))) by by eexists.
      tauto.
    + rewrite lookup_insert_ne by done. tauto.
Qed.


Lemma Update_ok_factory_event s now w i r :
  EvFactory i r ∈ (Update (mkEvent s None) now w).2
  ↔ EvFactory i r
      ∈ (produce (factory (c w)) (sort_list (slice_get (heap w) s))
           (cache (c w)) ∅ (fstate w)).2.
Proof.
  rewrite Update_ok_effects. cbn zeta. rewrite !elem_of_app.
  split; [|by left]. intros [H|[H|H]]; [done|..].
  - apply list_elem_of_omap in H as (kv & _ & H).
    destruct (ec_Closer kv.2); simplify_eq/=.
  - by apply list_elem_of_singleton in H.
Qed.

(** The keys of the map after an update without error. *)
Lemma Update_ok_keys s now w i :
  let r := Update (mkEvent s None) now w in
  is_Some (cache (c r.1) !! i)
  ↔ i ∈ slice_get (heap w) s
    ∧ (is_Some (cache (c w) !! i)
       ∨ ∃ res, EvFactory i res ∈ r.2 ∧ ferr res = None).
Proof.
  cbn zeta. rewrite Update_ok_c. cbn [cache].
  rewrite produce_keys, lookup_empty, sort_list_elem_of.
  setoid_rewrite Update_ok_factory_event.
  split; [|tauto]. intros [[? ?]|?]; [done|tauto].
Qed.

(** X3. After an error-free [Update] the map holds exactly the listed
    instances that it held before or that the factory made without error
    during the Update: nothing unlisted stays, nothing listed and available
    is missing. *)
Theorem new_map_keys s now w i :
  let r := Update (mkEvent s None) now w in
  is_Some (cache (c r.1) !! i)
  ↔ i ∈ slice_get (heap w) s
    ∧ (is_Some (cache (c w) !! i)
       ∨ ∃ res, EvFactory i res ∈ r.2 ∧ ferr res = None).
Proof. apply Update_ok_keys. Qed.

(** X4. An error-free [Update] with no instances empties the cache: every
    entry is closed, no factory call is made, the map and the snapshot end
    up empty and the error is cleared. *)
Theorem update_without_instances s now w :
  slice_get (heap w) s = [] →
  let r := Update (mkEvent s None) now w in
  cache (c r.1) = ∅
  ∧ endpoints (c r.1) = []
  ∧ err (c r.1) = None
  ∧ fstate r.1 = fstate w
  ∧ r.2 = closeLeftover (cache (c w)) ++ [EvInstall []]
  ∧ ∀ i, filter (λ ev, is_close i ev = true) r.2
         = entry_close (cache (c w)) i.
Proof.
  intros Hnil. cbn zeta.
  rewrite Update_ok_c, Update_ok_effects, Update_ok. cbn zeta.
  rewrite updateCache_unfold. cbn zeta. rewrite Hnil.
  change (sort_list []) with (@nil string). cbn.
  split_and!; try done.
  intros i. rewrite filter_app, closeLeftover_filter.
  rewrite filter_cons_False by done. apply app_nil_r.
Qed.

(** What a call of [Endpoints] changes and what it leaves. *)
Lemma Endpoints_effects now1 now2 w :
  let r := endpointCache_Endpoints now1 now2 w in
  fstate r.1.2 = fstate w
  ∧ heap r.1.2 = heap w
  ∧ err (c r.1.2) = err (c w)
  ∧ invalidateDeadline (c r.1.2) = invalidateDeadline (c w)
  ∧ factory_calls r.2 = []
  ∧ Forall (λ ev, match ev with
                  | EvClose _ _ | EvInstall _ => True
                  | _ => False
                  end) r.2
  ∧ match r.1.1.2 with
    | None => r.1.1.1 = endpoints (c w) ∧ r.1.2 = w ∧ r.2 = []
    | Some e =>
        err (c w) = Some e ∧ r.1.1.1 = []
        ∧ cache (c r.1.2) = ∅ ∧ endpoints (c r.1.2) = []
    end.
Proof.
  cbn zeta.
  unfold endpointCache_Endpoints, Endpoints_shared, Endpoints_exclusive.
  destruct (serving now1 (c w)) eqn:H1; [by cbn|].
  destruct (serving now2 (c w)) eqn:H2; [by cbn|].
  rewrite updateCache_nil.
  cbn [fst snd c heap fstate err invalidateDeadline cache endpoints].
  unfold serving in H1. destruct (err (c w)) as [e|] eqn:He; [|done].
  split_and!; try done.
  - rewrite factory_calls_app. by rewrite closeLeftover_factory_calls.
  - apply Forall_app. split; [|by repeat constructor].
    apply Forall_forall. intros ev (kv & _ & H)%list_elem_of_omap.
    destruct (ec_Closer kv.2); by simplify_eq/=.
Qed.

(** X5. [Endpoints] never calls the factory or the logger and never touches
    the instance arrays or the recorded error and deadline; when it returns
    a nil error it has changed nothing at all, and when it returns an error
    it has emptied the cache. *)
Theorem Endpoints_frame now1 now2 w :
  let r := endpointCache_Endpoints now1 now2 w in
  fstate r.1.2 = fstate w
  ∧ heap r.1.2 = heap w
  ∧ err (c r.1.2) = err (c w)
  ∧ invalidateDeadline (c r.1.2) = invalidateDeadline (c w)
  ∧ factory_calls r.2 = []
  ∧ Forall (λ ev, match ev with
                  | EvClose _ _ | EvInstall _ => True
                  | _ => False
                  end) r.2
  ∧ match r.1.1.2 with
    | None => r.1.1.1 = endpoints (c w) ∧ r.1.2 = w ∧ r.2 = []
    | Some e =>
        err (c w) = Some e ∧ r.1.1.1 = []
        ∧ cache (c r.1.2) = ∅ ∧ endpoints (c r.1.2) = []
    end.
Proof. apply Endpoints_effects. Qed.

Lemma receive_app events1 events2 w :
  receive (events1 ++ events2) w
  = let r1 := receive events1 w in
    let r2 := receive events2 r1.1 in
    (r2.1, r1.2 ++ r2.2).
Proof.
  revert w. induction events1 as [|[ev now] events1 IH]; intros w; simpl.
  - by destruct (receive events2 w).
  - destruct (Update ev now w) as [w1 e1]. rewrite IH. simpl.
    destruct (receive events1 w1) as [w2 e2]. simpl.
    destruct (receive events2 w2) as [w3 e3]. simpl.
    by rewrite app_assoc.
Qed.

(** X6. The re-check under the write lock. When the receiving goroutine
    applies events between the two critical sections of an [Endpoints] call
    that found the deadline passed, and the last of them is free of error,
    the call returns the snapshot of that last Update with a nil error, and
    itself closes and installs nothing. *)
Theorem Endpoints_recheck_after_update now1 now2 before s now w :
  Endpoints_shared now1 w = None →
  let between := before ++ [(mkEvent s None, now)] in
  let w1 := (receive between w).1 in
  Endpoints_interleaved now1 between now2 w
  = ((endpoints (c w1), None), w1, (receive between w).2).
Proof.
  intros Hslow between w1. unfold Endpoints_interleaved. rewrite Hslow.
  assert (err (c w1) = None) as Herr.
  { subst w1 between. rewrite receive_app. cbn zeta. cbn [fst].
    cbn [receive].
    destruct (Update (mkEvent s None) now (receive before w).1)
      as [w2 e2] eqn:Hu. cbn.
    replace w2 with (Update (mkEvent s None) now (receive before w).1).1
      by by rewrite Hu.
    by rewrite Update_ok_c. }
  subst w1. destruct (receive between w) as [w1 evs1]. cbn [fst snd] in *.
  unfold Endpoints_exclusive, serving. rewrite Herr.
  by rewrite app_nil_r.
Qed.


(** *** The snapshot follows the keys *)

Lemma populate_filter l
    (m : gmap string (@endpointCloser Endpoint Closer)) :
  populate l m = populate (filter (λ k, is_Some (m !! k)) l) m.
Proof.
  induction l as [|a l IH]; [done|]. rewrite filter_cons. simpl.
  destruct (m !! a) as [sc|] eqn:Ha.
  - rewrite decide_True by by eexists. simpl. by rewrite Ha, IH.
  - rewrite decide_False by (by intros [??]). done.
Qed.

Lemma StronglySorted_filter {A} (R : relation A) (P : A → Prop)
    `{∀ x, Decision (P x)} (xs : list A) :
  StronglySorted R xs → StronglySorted R (filter P xs).
Proof.
  induction 1 as [|x xs _ IH Hx]; [constructor|].
  rewrite filter_cons. destruct (decide (P x)); [|done].
  constructor; [done|]. apply Forall_forall. intros y Hy.
  apply list_elem_of_filter in Hy as [_ Hy].
  by eapply Forall_forall in Hx.
Qed.

Lemma sorted_keys_elem_of {A} (m : gmap string A) k :
  k ∈ sorted_keys m ↔ is_Some (m !! k).
Proof.
  unfold sorted_keys. by rewrite sort_list_elem_of, elem_of_elements,
    elem_of_dom.
Qed.

Lemma sorted_keys_length {A} (m : gmap string A) :
  length (sorted_keys m) = size m.
Proof.
  unfold sorted_keys. rewrite sort_list_length.
  rewrite <- size_dom. done.
Qed.

(** A sorted list without repetition that covers the keys, cut down to
    the keys, is the sorted list of the keys. *)
Lemma filter_sorted_keys l
    (m : gmap string (@endpointCloser Endpoint Closer)) :
  Sorted string_le l → NoDup l →
  (∀ k, is_Some (m !! k) → k ∈ l) →
  filter (λ k, is_Some (m !! k)) l = sorted_keys m.
Proof.
  intros Hs Hnd Hkeys. apply (Sorted_unique string_le).
  - apply StronglySorted_Sorted, StronglySorted_filter.
    by apply Sorted_StronglySorted; [apply _|].
  - apply sort_list_sorted.
  - apply NoDup_Permutation.
    + by apply NoDup_filter.
    + unfold sorted_keys. apply sort_list_NoDup, NoDup_elements.
    + intros k. rewrite list_elem_of_filter, sorted_keys_elem_of.
      naive_solver.
Qed.

Lemma populate_length_present l
    (m : gmap string (@endpointCloser Endpoint Closer)) :
  (∀ k, k ∈ l → is_Some (m !! k)) → length (populate l m) = length l.
Proof.
  induction l as [|a l IH]; intros Hall; [done|]. simpl.
  destruct (Hall a) as [sc ->]; [by left|]. simpl. f_equal.
  apply IH. intros k Hk. apply Hall. by right.
Qed.

Lemma updateCache_ordered s w :
  NoDup (slice_get (heap w) s) →
  ordered_snapshot (c (updateCache s w).1).
Proof.
  intros Hnd. rewrite updateCache_unfold. cbn zeta.
  unfold ordered_snapshot. cbn [c cache endpoints fst].
  set (l := sort_list (slice_get (heap w) s)).
  set (m := (produce (factory (c w)) l (cache (c w)) ∅ (fstate w)).1.1.2).
  rewrite (populate_filter l m). f_equal.
  apply filter_sorted_keys.
  - apply sort_list_sorted.
  - by apply sort_list_NoDup.
  - intros k Hk. subst m. apply produce_keys in Hk as [Hk|[Hk _]]; [|done].
    rewrite lookup_empty in Hk. by destruct Hk.
Qed.

Lemma sort_Strings_distinct s h :
  distinct_arrays h → distinct_arrays (sort_Strings s h).
Proof.
  intros Hh p xs. destruct s as [q|]; simpl; [|apply Hh].
  destruct (decide (q = p)) as [->|Hne].
  - rewrite lookup_alter_eq. destruct (h !! p) as [ys|] eqn:Hp; [|done].
    intros [= <-]. apply sort_list_NoDup. by eapply Hh.
  - rewrite lookup_alter_ne by done. apply Hh.
Qed.

Lemma distinct_arrays_slice s h :
  distinct_arrays h → NoDup (slice_get h s).
Proof.
  intros Hh. destruct s as [p|]; simpl; [|constructor].
  destruct (h !! p) as [xs|] eqn:Hp; simpl; [by eapply Hh|constructor].
Qed.

Lemma perform_heap k w :
  distinct_arrays (heap w) → distinct_arrays (heap (perform k w).1.1).
Proof.
  intros Hh. destruct k as [[s [e|]] now|now1 now2]; cbn [perform].
  - pose proof (Update_error s e now w) as H.
    destruct (Update (mkEvent s (Some e)) now w) as [w1 evs1]. simpl in *.
    subst. by destruct (invalidateOnError _), (err (c w)).
  - pose proof (Update_ok_heap s now w) as H.
    destruct (Update (mkEvent s None) now w) as [w1 evs1]. simpl in *.
    rewrite H. by apply sort_Strings_distinct.
  - pose proof (Endpoints_effects now1 now2 w) as (_ & H & _).
    destruct (endpointCache_Endpoints now1 now2 w) as [[r w1] evs1].
    simpl in *. by rewrite H.
Qed.

Lemma perform_ordered k w :
  distinct_arrays (heap w) → ordered_snapshot (c w) →
  ordered_snapshot (c (perform k w).1.1).
Proof.
  intros Hh Hord. destruct k as [[s [e|]] now|now1 now2]; cbn [perform].
  - pose proof (Update_error s e now w) as H.
    destruct (Update (mkEvent s (Some e)) now w) as [w1 evs1]. simpl in *.
    subst. by destruct (invalidateOnError _), (err (c w)).
  - pose proof (updateCache_ordered s w (distinct_arrays_slice s _ Hh)) as H.
    rewrite Update_ok. by destruct (updateCache s w).
  - unfold endpointCache_Endpoints, Endpoints_shared, Endpoints_exclusive.
    destruct (serving now1 (c w)); [done|].
    destruct (serving now2 (c w)); [done|].
    pose proof (updateCache_ordered None w) as H.
    destruct (updateCache None w) as [w1 evs1]. simpl in *.
    apply H. constructor.
Qed.

(** X7. [Endpoints] "yields the current set of endpoints, ordered
    lexicographically by the corresponding instance string": as long as no
    array the discovery source sends repeats an instance, after any calls
    the snapshot is the endpoints of the entries of the map in the
    lexicographic order of their keys, one per entry. *)
Theorem snapshot_follows_keys f options h fs ks :
  distinct_arrays h →
  let w := (run ks (NewEndpointer f options h fs)).1.1 in
  endpoints (c w)
  = omap (λ k, ec_Endpoint <$> cache (c w) !! k) (sorted_keys (cache (c w)))
  ∧ length (endpoints (c w)) = size (cache (c w)).
Proof.
  intros Hh w.
  assert (ordered_snapshot (c w)) as Hord.
  { subst w.
    assert (ordered_snapshot (c (NewEndpointer f options h fs))) as H0.
    { unfold ordered_snapshot, sorted_keys. cbn.
      rewrite dom_empty_L, elements_empty. done. }
    assert (distinct_arrays (heap (NewEndpointer f options h fs))) as H1
      by done.
    revert H0 H1. generalize (NewEndpointer f options h fs).
    induction ks as [|k ks IH]; intros w0 H0 H1; [done|]. cbn [run].
    pose proof (perform_ordered k w0 H1 H0) as H2.
    pose proof (perform_heap k w0 H1) as H3.
    destruct (perform k w0) as [[w1 e1] r1]. cbn [fst] in *.
    specialize (IH w1 H2 H3).
    by destruct (run ks w1) as [[w2 e2] r2]. }
  unfold ordered_snapshot in Hord. rewrite Hord. split.
  - apply populate_omap.
  - rewrite populate_length_present; [apply sorted_keys_length|].
    intros k. by rewrite sorted_keys_elem_of.
Qed.


(** *** Every closer is closed, once *)










(** *** The same instances again *)


Lemma failures_app evs1 evs2 :
  failures (evs1 ++ evs2) = (failures evs1 + failures evs2)%nat.
Proof. unfold failures. by rewrite filter_app, length_app. Qed.





(** *** Where entries come from *)

Lemma produce_from_factory f l old new fs :
  from_factory f old → from_factory f new →
  from_factory f (produce f l old new fs).1.1.2.
Proof.
  revert l old new fs.
  apply (produce_rect f (λ l old new fs res,
           from_factory f old → from_factory f new →
           from_factory f res.1.1.2)); cbn [fst snd].
  - done.
  - intros a l old new fs sc o n s evs Ha _ IH Hold Hnew. apply IH.
    + intros i sc' Hi. apply (Hold i).
      apply lookup_delete_Some in Hi. tauto.
    + intros i sc'. destruct (decide (i = a)) as [->|Hne].
      * rewrite lookup_insert_eq. intros [= <-]. by apply Hold.
      * rewrite lookup_insert_ne by done. apply Hnew.
  - intros a l old new fs r fs1 e o n s evs Ha _ _ _ IH Hold Hnew. auto.
  - intros a l old new fs r fs1 o n s evs Ha Hf He _ IH Hold Hnew.
    apply IH; [done|].
    intros i sc'. destruct (decide (i = a)) as [->|Hne].
    + rewrite lookup_insert_eq. intros [= <-]. exists fs. by rewrite Hf.
    + rewrite lookup_insert_ne by done. apply Hnew.
Qed.

Lemma from_factory_empty f : from_factory f ∅.
Proof. intros i sc. by rewrite lookup_empty. Qed.

Lemma perform_from_factory k w :
  from_factory (factory (c w)) (cache (c w)) →
  from_factory (factory (c w)) (cache (c (perform k w).1.1)).
Proof.
  intros Hw. destruct k as [[s [e|]] now|now1 now2]; cbn [perform].
  - pose proof (Update_error s e now w) as H.
    destruct (Update (mkEvent s (Some e)) now w) as [w1 evs1]. simpl in *.
    subst. by destruct (invalidateOnError _), (err (c w)).
  - pose proof (Update_ok_c s now w) as H.
    destruct (Update (mkEvent s None) now w) as [w1 evs1]. simpl in *.
    rewrite H. cbn. apply produce_from_factory; [done|].
    apply from_factory_empty.
  - unfold endpointCache_Endpoints, Endpoints_shared, Endpoints_exclusive.
    destruct (serving now1 (c w)); [done|].
    destruct (serving now2 (c w)); [done|].
    rewrite updateCache_nil. cbn. apply from_factory_empty.
Qed.

Lemma run_from_factory ks w :
  from_factory (factory (c w)) (cache (c w)) →
  from_factory (factory (c w)) (cache (c (run ks w).1.1)).
Proof.
  revert w. induction ks as [|k ks IH]; intros w Hw; [done|]. cbn [run].
  pose proof (perform_from_factory k w Hw) as H1.
  destruct (perform_options k w) as [_ Hf].
  destruct (perform k w) as [[w1 e1] r1]. cbn [fst] in *.
  rewrite <- Hf in H1 |- *. specialize (IH w1 H1).
  by destruct (run ks w1) as [[w2 e2] r2].
Qed.

Lemma populate_elem_of_iff l
    (m : gmap string (@endpointCloser Endpoint Closer)) e :
  e ∈ populate l m ↔ ∃ i sc, i ∈ l ∧ m !! i = Some sc ∧ ec_Endpoint sc = e.
Proof.
  rewrite populate_omap, list_elem_of_omap. split.
  - intros (i & Hi & H). destruct (m !! i) as [sc|] eqn:E; simplify_eq/=.
    eauto.
  - intros (i & sc & Hi & Hsc & <-). exists i. by rewrite Hsc.
Qed.

Lemma updateCache_snapshot_is_entries s w :
  snapshot_is_entries (c (updateCache s w).1).
Proof.
  rewrite updateCache_unfold. cbn zeta. intros e. cbn.
  rewrite populate_elem_of_iff. split; [naive_solver|].
  intros (i & sc & Hsc & <-). exists i, sc. split; [|done].
  assert (is_Some
            ((produce (factory (c w)) (sort_list (slice_get (heap w) s))
                (cache (c w)) ∅ (fstate w)).1.1.2 !! i)) as Hi by by eexists.
  apply produce_keys in Hi as [Hi|[Hi _]]; [|done].
  rewrite lookup_empty in Hi. by destruct Hi.
Qed.

Lemma perform_snapshot_is_entries k w :
  snapshot_is_entries (c w) → snapshot_is_entries (c (perform k w).1.1).
Proof.
  intros Hw. destruct k as [[s [e|]] now|now1 now2]; cbn [perform].
  - pose proof (Update_error s e now w) as H.
    destruct (Update (mkEvent s (Some e)) now w) as [w1 evs1]. simpl in *.
    subst. by destruct (invalidateOnError _), (err (c w)).
  - pose proof (updateCache_snapshot_is_entries s w) as H.
    rewrite Update_ok. by destruct (updateCache s w).
  - unfold endpointCache_Endpoints, Endpoints_shared, Endpoints_exclusive.
    destruct (serving now1 (c w)); [done|].
    destruct (serving now2 (c w)); [done|].
    pose proof (updateCache_snapshot_is_entries None w) as H.
    by destruct (updateCache None w).
Qed.

Lemma run_snapshot_is_entries ks w :
  snapshot_is_entries (c w) → snapshot_is_entries (c (run ks w).1.1).
Proof.
  revert w. induction ks as [|k ks IH]; intros w Hw; [done|]. cbn [run].
  pose proof (perform_snapshot_is_entries k w Hw) as H1.
  destruct (perform k w) as [[w1 e1] r1]. cbn [fst] in *.
  specialize (IH w1 H1). by destruct (run ks w1) as [[w2 e2] r2].
Qed.

(** Where the entries held after a history come from. *)
Lemma run_entries f options h fs ks :
  let w := (run ks (NewEndpointer f options h fs)).1.1 in
  from_factory f (cache (c w)) ∧ snapshot_is_entries (c w).
Proof.
  cbn zeta. split.
  - apply (run_from_factory ks (NewEndpointer f options h fs)).
    apply from_factory_empty.
  - apply run_snapshot_is_entries. intros e. cbn.
    rewrite elem_of_nil. split; [done|].
    intros (i & sc & H & _). by rewrite lookup_empty in H.
Qed.

(** X10. A factory call that returns an error leaves no entry, and the
    snapshot serves the entries only: after any calls on an endpointer,
    every entry of the map is what a call of the factory for the entry's key
    returned with a nil error, and the endpoints of the snapshot are those
    of the entries. *)
Theorem entries_from_factory f options h fs ks :
  let w := (run ks (NewEndpointer f options h fs)).1.1 in
  from_factory f (cache (c w)) ∧ snapshot_is_entries (c w).
Proof. apply run_entries. Qed.

Lemma closeLeftover_no_closers
    (m : gmap string (@endpointCloser Endpoint Closer)) :
  (∀ i sc, m !! i = Some sc → ec_Closer sc = None) → closeLeftover m = [].
Proof.
  intros Hm. unfold closeLeftover.
  assert (∀ kv, kv ∈ map_to_list m → ec_Closer kv.2 = None) as Hall.
  { intros [k sc] Hkv. apply elem_of_map_to_list in Hkv. by eapply Hm. }
  induction (map_to_list m) as [|kv kvs IH]; [done|]. cbn.
  rewrite (Hall kv) by left. cbn. apply IH.
  intros kv' Hkv'. apply Hall. by right.
Qed.

(** While no entry has a closer, no call closes anything. *)
Lemma perform_close_calls_none k w :
  (∀ i sc, cache (c w) !! i = Some sc → ec_Closer sc = None) →
  close_calls (perform k w).1.2 = [].
Proof.
  intros Hw. destruct k as [[s [e|]] now|now1 now2]; cbn [perform].
  - pose proof (Update_error_effects s e now w) as H.
    destruct (Update (mkEvent s (Some e)) now w) as [w1 evs1]. simpl in *.
    by subst.
  - pose proof (Update_ok_effects s now w) as H.
    destruct (Update (mkEvent s None) now w) as [w1 evs1].
    cbn [fst snd] in *. cbn zeta in H.
    subst. rewrite !close_calls_app, produce_close_calls.
    rewrite closeLeftover_no_closers; [done|].
    intros i sc Hsc. apply (Hw i). rewrite produce_old in Hsc.
    by case_decide.
  - unfold endpointCache_Endpoints, Endpoints_shared, Endpoints_exclusive.
    destruct (serving now1 (c w)); [done|].
    destruct (serving now2 (c w)); [done|].
    rewrite updateCache_nil. cbn [fst snd].
    by rewrite closeLeftover_no_closers.
Qed.

(** X11. A cache over [factoryFor]: whatever the calls, every endpoint of
    the snapshot was made by [makeEndpoint] from a service that
    [MakeClientEndpoints] built without error for a cached instance (the nil
    endpoint of a failed construction is never served), and no closer is
    ever closed, there being none. *)
Theorem factoryFor_cache {Service : Type} (nil_endpoint : Endpoint)
    (MakeClientEndpoints : string → Service + error)
    (makeEndpoint : Service → Endpoint) options h fs ks :
  let f := @examples.factoryFor Endpoint Closer FState Service
             nil_endpoint MakeClientEndpoints makeEndpoint in
  let r := run ks (NewEndpointer f options h fs) in
  (∀ e, e ∈ endpoints (c r.1.1) →
        ∃ i service, is_Some (cache (c r.1.1) !! i)
                     ∧ MakeClientEndpoints i = inl service
                     ∧ e = makeEndpoint service)
  ∧ close_calls r.1.2 = [].
Proof.
  cbn zeta. set (f := examples.factoryFor _ _ _).
  assert (∀ m : gmap string (@endpointCloser Endpoint Closer),
            from_factory f m →
            ∀ i sc, m !! i = Some sc →
              ec_Closer sc = None
              ∧ ∃ service, MakeClientEndpoints i = inl service
                           ∧ ec_Endpoint sc = makeEndpoint service) as Hshape.
  { intros m Hm i sc Hsc. destruct (Hm i sc Hsc) as (fs' & He & ->).
    revert He. unfold f, examples.factoryFor.
    destruct (MakeClientEndpoints i) as [service|e]; [|done]. cbn. eauto. }
  split.
  - destruct (run_entries f options h fs ks) as [Hff Hsn].
    cbn zeta in *. intros e (i & sc & Hsc & <-)%Hsn.
    destruct (Hshape _ Hff i sc Hsc) as (_ & service & ? & ?).
    exists i, service. split_and!; [by eexists|done|done].
  - assert (from_factory f (cache (c (NewEndpointer f options h fs))))
      as H0 by apply from_factory_empty.
    assert (factory (c (NewEndpointer f options h fs)) = f) as Hf0 by done.
    revert H0 Hf0. generalize (NewEndpointer f options h fs).
    induction ks as [|k ks IH]; intros w Hw Hf; [done|]. cbn [run].
    pose proof (perform_close_calls_none k w
                  (λ i sc H, proj1 (Hshape _ Hw i sc H))) as Hk.
    rewrite <- Hf in Hw. pose proof (perform_from_factory k w Hw) as Hw1.
    destruct (perform_options k w) as [_ Hf1].
    destruct (perform k w) as [[w1 e1] r1]. cbn [fst snd] in *.
    rewrite Hf in Hw1. rewrite Hf in Hf1. specialize (IH w1 Hw1 Hf1).
    destruct (run ks w1) as [[w2 e2] r2]. cbn [fst snd] in *.
    by rewrite close_calls_app, Hk, IH.
Qed.

End CacheMore.

(** * Further properties of the balancers *)

Section BalancerMore.

Context {Endpoint S R : Type} `{!sd.Endpointer Endpoint S} `{!Rand R}.

(** X12. [random.Endpoint] over a snapshot that is not empty, with a
    generator that keeps [Intn]'s promise of a number in [[0, n)]: the call
    does not panic and returns, with a nil error, an endpoint of the
    snapshot it has just fetched, the one at the drawn index. *)
Theorem random_selects_from_snapshot (b : @random S R) eps :
  (sd.Endpoints (random_s b)).1 = (eps, None) →
  eps ≠ [] →
  0 ≤ (Intn (random_r b) (Z.of_nat (length eps))).1 < Z.of_nat (length eps) →
  ∃ e, eps !! Z.to_nat (Intn (random_r b) (Z.of_nat (length eps))).1 = Some e
       ∧ e ∈ eps
       ∧ (random_Endpoint b).1 = Return (Some e, None)
       ∧ random_s (random_Endpoint b).2 = (sd.Endpoints (random_s b)).2
       ∧ random_r (random_Endpoint b).2
         = (Intn (random_r b) (Z.of_nat (length eps))).2.
Proof.
  intros Hs Hne Hi. unfold random_Endpoint.
  destruct (sd.Endpoints (random_s b)) as [[eps' er] s']. simpl in Hs.
  injection Hs as -> ->.
  rewrite (proj2 (Z.leb_gt _ _)) by (destruct eps; simpl; [done|lia]).
  destruct (Intn (random_r b) (Z.of_nat (length eps))) as [i r']. simpl in *.
  assert (is_Some (eps !! Z.to_nat i)) as [e He]
    by (apply lookup_lt_is_Some; lia).
  exists e. split_and!; try done.
  - by eapply list_elem_of_lookup_2.
  - unfold index. rewrite (proj2 (Z.ltb_ge _ _)) by lia. by rewrite He.
Qed.

(** The cases of a call of the round robin. *)
Lemma roundRobin_Endpoint_cases (rr : @roundRobin S) :
  0 ≤ rr_c rr < uint64_mod →
  let eps := (sd.Endpoints (rr_s rr)).1.1 in
  let r := roundRobin_Endpoint rr in
  0 ≤ rr_c r.2 < uint64_mod
  ∧ rr_s r.2 = (sd.Endpoints (rr_s rr)).2
  ∧ match (sd.Endpoints (rr_s rr)).1.2 with
    | Some e => r.1 = Return (None, Some e) ∧ rr_c r.2 = rr_c rr
    | None =>
        match eps !! Z.to_nat (rr_c rr mod Z.of_nat (length eps)) with
        | None =>
            eps = [] ∧ r.1 = Return (None, Some ErrNoEndpoints)
            ∧ rr_c r.2 = rr_c rr
        | Some e =>
            e ∈ eps ∧ r.1 = Return (Some e, None)
            ∧ rr_c r.2 = (rr_c rr + 1) mod uint64_mod
        end
    end.
Proof.
  intros Hc. cbn zeta. unfold roundRobin_Endpoint.
  destruct (sd.Endpoints (rr_s rr)) as [[eps [e|]] s']; cbn [fst snd].
  { by cbn. }
  destruct eps as [|e0 eps].
  { by cbn. }
  rewrite (proj2 (Z.leb_gt _ _)) by (simpl; lia).
  cbn [fst snd rr_c rr_s]. unfold AddUint64.
  rewrite Zminus_mod_idemp_l.
  replace (rr_c rr + 1 - 1) with (rr_c rr) by lia.
  rewrite (Z.mod_small (rr_c rr) uint64_mod) by done.
  pose proof (Z.mod_pos_bound (rr_c rr) (Z.of_nat (length (e0 :: eps))))
    as Hb.
  pose proof (Z.mod_pos_bound (rr_c rr + 1) uint64_mod) as Hb'.
  assert (is_Some ((e0 :: eps)
                     !! Z.to_nat (rr_c rr mod Z.of_nat (length (e0 :: eps)))))
    as [e He] by (apply lookup_lt_is_Some; simpl in *; lia).
  rewrite He. split_and!; try done; try (apply Hb'; done).
  - by eapply list_elem_of_lookup_2.
  - apply index_lookup; [|done]. apply Hb. simpl; lia.
Qed.

(** X13. [roundRobin.Endpoint] never panics, whatever the endpointer returns
    and wherever the counter stands: an error of the endpointer or an empty
    snapshot gives that error or [ErrNoEndpoints] and leaves the counter
    alone; otherwise the endpoint at index [counter mod N] of the snapshot
    just fetched is returned and the counter moves to the next value,
    staying a [uint64]. *)
Theorem roundRobin_never_panics (rr : @roundRobin S) :
  0 ≤ rr_c rr < uint64_mod →
  let eps := (sd.Endpoints (rr_s rr)).1.1 in
  let r := roundRobin_Endpoint rr in
  0 ≤ rr_c r.2 < uint64_mod
  ∧ rr_s r.2 = (sd.Endpoints (rr_s rr)).2
  ∧ match (sd.Endpoints (rr_s rr)).1.2 with
    | Some e => r.1 = Return (None, Some e) ∧ rr_c r.2 = rr_c rr
    | None =>
        match eps !! Z.to_nat (rr_c rr mod Z.of_nat (length eps)) with
        | None =>
            eps = [] ∧ r.1 = Return (None, Some ErrNoEndpoints)
            ∧ rr_c r.2 = rr_c rr
        | Some e =>
            e ∈ eps ∧ r.1 = Return (Some e, None)
            ∧ rr_c r.2 = (rr_c rr + 1) mod uint64_mod
        end
    end.
Proof. apply roundRobin_Endpoint_cases. Qed.

End BalancerMore.

Section BalancerOverCache.

Context {Endpoint Closer FState : Type}.

(** X14. A round robin over a [DefaultEndpointer]. The call hands out only
    endpoints of the cache's snapshot and then leaves the cache alone; with
    an empty snapshot it reports [ErrNoEndpoints]; and once the cache has
    invalidated itself it reports the recorded discovery error. It never
    panics. *)
Theorem round_robin_over_cache now1 now2
    (rr : @roundRobin (@sd.World Endpoint Closer FState)) :
  0 ≤ rr_c rr < uint64_mod →
  let r := @roundRobin_Endpoint Endpoint _
             (sd.DefaultEndpointer_Endpoints now1 now2) rr in
  match r.1 with
  | Return (Some e, None) =>
      e ∈ sd.endpoints (sd.c (rr_s rr)) ∧ rr_s r.2 = rr_s rr
  | Return (None, Some e) =>
      (e = ErrNoEndpoints ∧ sd.endpoints (sd.c (rr_s rr)) = []
       ∧ rr_s r.2 = rr_s rr)
      ∨ (sd.err (sd.c (rr_s rr)) = Some e
         ∧ sd.cache (sd.c (rr_s r.2)) = ∅
         ∧ sd.endpoints (sd.c (rr_s r.2)) = [])
  | _ => False
  end.
Proof.
  intros Hc. cbn zeta.
  pose proof (@roundRobin_Endpoint_cases Endpoint _
                (sd.DefaultEndpointer_Endpoints now1 now2) rr Hc) as H.
  cbn zeta in H. destruct H as (_ & Hs & H).
  pose proof (Endpoints_effects now1 now2 (rr_s rr)) as Hf. cbn zeta in Hf.
  destruct Hf as (_ & _ & _ & _ & _ & _ & Hf).
  unfold sd.Endpoints, sd.DefaultEndpointer_Endpoints in *.
  destruct (sd.endpointCache_Endpoints now1 now2 (rr_s rr))
    as [[[eps er] w1] evs]. cbn [fst snd] in *.
  destruct er as [e|].
  - destruct H as [-> _]. right. rewrite Hs. naive_solver.
  - destruct Hf as (-> & -> & _).
    destruct (_ !! _) as [e|].
    + destruct H as (? & -> & _). by rewrite Hs.
    + destruct H as (? & -> & _). left. by rewrite Hs.
Qed.

End BalancerOverCache.

Section RoundRobinRounds.

Context {Endpoint : Type}.

Implicit Types (eps : list Endpoint).
Implicit Types (rr : @roundRobin (sd.FixedEndpointer Endpoint)).

Lemma calls_add {B : Type} `{!Balancer Endpoint B} (n m : nat) (b : B) :
  calls (n + m) b
  = ((calls n b).1 ++ (calls m (calls n b).2).1, (calls m (calls n b).2).2).
Proof.
  revert b. induction n as [|n IH]; intros b.
  - cbn. by destruct (calls m b).
  - cbn [Nat.add calls]. destruct (Balancer_Endpoint b) as [r b1].
    rewrite IH. destruct (calls n b1) as [rs b2]. cbn [fst snd].
    by destruct (calls m b2).
Qed.

(** X15. Fairness of the round robin. Over a fixed non-empty snapshot, [k]
    rounds of as many calls as there are endpoints, during which the counter
    does not pass [2^64 - 1], select the rotated snapshot [k] times over:
    every round visits every endpoint once, in the same order. *)
Theorem round_robin_rounds (k : nat) rr :
  rr_s rr ≠ [] → 0 ≤ rr_c rr →
  rr_c rr + Z.of_nat (k * length (rr_s rr)) ≤ uint64_mod →
  (calls (k * length (rr_s rr)) rr).1
  = (λ e, Return (Some e, None))
      <$> concat (replicate k
                    (rotate (Z.to_nat (rr_c rr
                                       mod Z.of_nat (length (rr_s rr))))
                       (rr_s rr))).
Proof.
  revert rr. induction k as [|k IH]; intros rr Hne H0 Hw; [done|].
  assert (0 < Z.of_nat (length (rr_s rr))) as HN
    by (destruct (rr_s rr); simpl; [done|lia]).
  cbn [Nat.mul replicate concat]. rewrite calls_add. cbn [fst].
  rewrite fmap_app. rewrite calls_window by (done || lia). f_equal.
  rewrite calls_fixed_state by (done || lia).
  destruct k as [|k]; [done|].
  assert ((rr_c rr + Z.of_nat (length (rr_s rr))) mod uint64_mod
          = rr_c rr + Z.of_nat (length (rr_s rr))) as Hc'
    by (apply Z.mod_small; nia).
  specialize (IH {| rr_s := rr_s rr;
                    rr_c := (rr_c rr + Z.of_nat (length (rr_s rr)))
                            mod uint64_mod |}).
  cbn [rr_s rr_c] in IH. rewrite IH; [| done | lia | rewrite Hc'; nia].
  rewrite Hc'.
  assert ((rr_c rr + Z.of_nat (length (rr_s rr)))
            mod Z.of_nat (length (rr_s rr))
          = rr_c rr mod Z.of_nat (length (rr_s rr))) as ->; [|done].
  replace (rr_c rr + Z.of_nat (length (rr_s rr)))
    with (rr_c rr + 1 * Z.of_nat (length (rr_s rr))) by lia.
  apply Z.mod_add. lia.
Qed.

End RoundRobinRounds.

(** * Middleware chains *)

Section ChainFacts.

Import endpoint.

Context {E : Type}.

Implicit Types (m outer : @Middleware E) (ms others : list (@Middleware E)).

Lemma Chain_foldr outer others next :
  Chain outer others next = foldr (λ m e, m e) next (outer :: others).
Proof.
  unfold Chain. cbn [foldr]. f_equal.
  rewrite <- (reverse_involutive others) at 2.
  generalize (reverse others) as l. intros l. revert next.
  induction l as [|m l IH]; intros next; [done|].
  rewrite reverse_cons, foldr_app. cbn [fold_left foldr]. apply IH.
Qed.

(** X16. The chain applies the middlewares in the order they are given: the
    first one is outermost, the last one wraps the endpoint itself. So a
    chain of [outer] and [m :: rest] is [outer] around the chain of [m] and
    [rest], and a chain with no others is [outer] alone. *)
Theorem Chain_first_is_outermost outer m rest next :
  Chain outer [] next = outer next
  ∧ Chain outer (m :: rest) next = outer (Chain m rest next)
  ∧ Chain outer (rest ++ [m]) next = Chain outer rest (m next).
Proof.
  rewrite !Chain_foldr. cbn [foldr]. rewrite foldr_app. done.
Qed.

(** X17. Chains nest: a chain used as the outer middleware of another chain
    is the chain of all the middlewares in a row. *)
Theorem Chain_of_chain outer ms others next :
  Chain (Chain outer ms) others next = Chain outer (ms ++ others) next.
Proof.
  rewrite Chain_foldr. cbn [foldr]. rewrite !Chain_foldr. cbn [foldr].
  by rewrite foldr_app.
Qed.

End ChainFacts.

(** * The proxying middleware of [stringsvc3] *)

Section ProxyFacts.

Import lb examples.

Context {Endpoint : Type}.




End ProxyFacts.

(** * The further properties at sample values *)

Section MoreSamples.

Import sd lb Samples.

Lemma tidy_distinct : distinct_arrays (heap tidy).
Proof.
  intros p xs H. revert p xs H. apply map_Forall_lookup.
  cbn [heap tidy].
  repeat (apply map_Forall_insert_2;
          [apply (bool_decide_unpack _); by vm_compute|]).
  apply map_Forall_empty.
Qed.

Lemma factory_called_for_the_uncached_witness :
  factory_calls (Update (mkEvent (Some 2%positive) None) 5 warm).2
  = ["bad"]%string.
Proof.
  assert (NoDup (slice_get (heap warm) (Some 2%positive))) as Hnd
    by (apply (bool_decide_unpack _); by vm_compute).
  rewrite (factory_called_for_the_uncached (Some 2%positive) 5 warm Hnd).
  by vm_compute.
Defined.

Lemma update_without_instances_witness :
  cache (c (Update (mkEvent None None) 5 warm).1) = ∅
  ∧ endpoints (c (Update (mkEvent None None) 5 warm).1) = []
  ∧ filter (λ ev, is_close "a" ev = true)
      (Update (mkEvent None None) 5 warm).2
    = entry_close (cache (c warm)) "a".
Proof.
  destruct (update_without_instances None 5 warm eq_refl)
    as (H1 & H2 & _ & _ & _ & H3).
  split; [exact H1|]. split; [exact H2|]. exact (H3 "a"%string).
Defined.

Lemma Endpoints_recheck_after_update_witness :
  Endpoints_shared 111 failing = None
  ∧ (Endpoints_interleaved 111
       [(mkEvent (Some 2%positive) None, 112)] 113 failing).1.1.2 = None.
Proof.
  split; [done|].
  exact (f_equal (λ r, r.1.1.2)
           (Endpoints_recheck_after_update 111 113 [] (Some 2%positive) 112
              failing eq_refl)).
Defined.

Lemma snapshot_follows_keys_witness :
  length (endpoints (c (run history
                          (NewEndpointer fac [InvalidateOnError 10]
                             (heap tidy) 0%nat)).1.1))
  = size (cache (c (run history
                      (NewEndpointer fac [InvalidateOnError 10]
                         (heap tidy) 0%nat)).1.1)).
Proof.
  exact (proj2 (snapshot_follows_keys fac [InvalidateOnError 10] (heap tidy)
                  0%nat history tidy_distinct)).
Defined.



Lemma random_selects_from_snapshot_witness :
  ∃ e, e ∈ [10; 20; 30]%nat
       ∧ (random_Endpoint (NewRandom [10; 20; 30]%nat (7 : Z))).1
         = Return (Some e, None).
Proof.
  assert ([10; 20; 30]%nat ≠ []) as Hne by done.
  assert (0 ≤ (Intn (7 : Z) (Z.of_nat (length [10; 20; 30]%nat))).1
          < Z.of_nat (length [10; 20; 30]%nat)) as Hi by done.
  assert ((sd.Endpoints (random_s (NewRandom [10; 20; 30]%nat (7 : Z)))).1
          = ([10; 20; 30]%nat, None)) as Hs by done.
  destruct (random_selects_from_snapshot
              (NewRandom [10; 20; 30]%nat (7 : Z)) [10; 20; 30]%nat
              Hs Hne Hi) as (e & _ & He & Hr & _).
  exists e. split; [exact He|exact Hr].
Defined.

Lemma roundRobin_never_panics_witness :
  0 ≤ rr_c (roundRobin_Endpoint {| rr_s := [10; 20; 30]%nat; rr_c := 4 |}).2
  < uint64_mod.
Proof.
  assert (0 ≤ 4 < uint64_mod) as Hc by done.
  exact (proj1 (roundRobin_never_panics
                  {| rr_s := [10; 20; 30]%nat; rr_c := 4 |} Hc)).
Defined.

Lemma round_robin_over_cache_witness :
  match (@roundRobin_Endpoint nat _ (DefaultEndpointer_Endpoints 1 2)
           {| rr_s := warm; rr_c := 4 |}).1 with
  | Return (Some e, None) => e ∈ endpoints (c warm)
  | _ => True
  end.
Proof.
  assert (0 ≤ 4 < uint64_mod) as Hc by done.
  pose proof (round_robin_over_cache 1 2 {| rr_s := warm; rr_c := 4 |} Hc)
    as H.
  cbn zeta in H. cbn [rr_s] in H.
  destruct (roundRobin_Endpoint _).1 as [[[e|] [er|]]|]; try done.
  exact (proj1 H).
Defined.

Lemma round_robin_rounds_witness :
  (calls 6 {| rr_s := [10; 20; 30]%nat; rr_c := 4 |}).1
  = (λ e, Return (Some e, None)) <$> [20; 30; 10; 20; 30; 10]%nat.
Proof.
  assert ([10; 20; 30]%nat ≠ []) as Hne by done.
  assert (0 ≤ 4) as H0 by done.
  assert (4 + Z.of_nat (2 * length [10; 20; 30]%nat) ≤ uint64_mod) as Hw
    by done.
  exact (round_robin_rounds 2 {| rr_s := [10; 20; 30]%nat; rr_c := 4 |}
           Hne H0 Hw).
Defined.

End MoreSamples.
